(** * gox: platform catalog and platform filter

    A shallow embedding of [platform.go] (the [Platform] type, [addDrop],
    the historical ladder [Platforms_1_0] .. [PlatformsLatest] and
    [SupportedPlatforms]) and of the flag file ([PlatformFlag.Platforms],
    [appendPlatformValue.Set], [appendStringValue.Set]), followed by the
    properties of the specification that concern them.

    Conventions of the embedding:
    - a Go [string] is a [string] of bytes; [s[0]] on an empty string is a
      run-time panic, so every function that indexes returns an [option]
      whose [None] is the panic;
    - a Go [map[string]V] is a [gmap string V]; a missing key of a
      [map[string]bool] reads as [false] ([getBool]);
    - [for k, v := range m] visits the entries of [m] in an order the
      language leaves open.  The order is a parameter, [MapOrder]: every
      function that ranges over a map takes it, and every theorem is proved
      for all orders.  A [MapOrder] visits equal maps in the same order;
      Go may change the order from one loop to the next, which permutes
      the results and nothing else ([Platforms_result_order]), and the
      properties below are on membership, or up to the order of the result,
      wherever a map is ranged over;
    - an [error] result is an [option string] holding the message. *)

From Stdlib Require Import String Ascii NArith.
From stdpp Require Import gmap strings list fin_maps.

(** ** Strings *)

(** [s[0]]: the first byte, a panic ([None]) on the empty string. *)
Definition index0 (s : string) : option ascii :=
  match s with
  | EmptyString => None
  | String c _ => Some c
  end.

(** [s[n:]] for [n <= len(s)]. *)
Fixpoint sliceFrom (n : nat) (s : string) : string :=
  match n, s with
  | O, _ => s
  | S n', String _ s' => sliceFrom n' s'
  | S _, EmptyString => EmptyString
  end.

(** [strings.HasPrefix(s, prefix)]. *)
Definition HasPrefix (s prefix : string) : bool := String.prefix prefix s.

(** [strings.Split(s, sep)] for a separator of one byte, the only use the
    program makes of it: the pieces of [s] between the occurrences of
    [sep]; one more piece than there are separators, [[""]] for [""]. *)
Fixpoint Split (s : string) (sep : ascii) : list string :=
  match s with
  | EmptyString => [EmptyString]
  | String c s' =>
      if Ascii.eqb c sep then EmptyString :: Split s' sep
      else match Split s' sep with
           | w :: ws => String c w :: ws
           | [] => [String c EmptyString]
           end
  end.

(** [strings.ToLower] on ASCII input: the bytes ['A'..'Z'] are moved to
    ['a'..'z'], every other byte is kept (Go maps non-ASCII runes through
    Unicode's tables; OS and architecture names are ASCII). *)
Definition lowerByte (c : ascii) : ascii :=
  let n := N_of_ascii c in
  if ((65 <=? n) && (n <=? 90))%N then ascii_of_N (n + 32) else c.

Fixpoint ToLower (s : string) : string :=
  match s with
  | EmptyString => EmptyString
  | String c s' => String (lowerByte c) (ToLower s')
  end.

(** ** Maps *)

(** [m[k]] on a [map[string]bool]: [false] for a missing key. *)
Definition getBool (m : gmap string bool) (k : string) : bool :=
  default false (m !! k).

(** The order in which [range] visits a map: any enumeration of its
    entries. *)
Record MapOrder := {
  rangeMap : ∀ A : Type, gmap string A → list (string * A);
  rangeMap_perm : ∀ (A : Type) (m : gmap string A),
    rangeMap A m ≡ₚ map_to_list m
}.
Arguments rangeMap _ {A} _.

(** One order: the one of [map_to_list]. *)
Definition canonicalOrder : MapOrder :=
  {| rangeMap := λ A m, map_to_list m;
     rangeMap_perm := λ A m, reflexivity (map_to_list m) |}.

(** [for k := range m]. *)
Definition rangeKeys (o : MapOrder) {A} (m : gmap string A) : list string :=
  (rangeMap o m).*1.

(** [for _, v := range m]. *)
Definition rangeValues (o : MapOrder) {A} (m : gmap string A) : list A :=
  (rangeMap o m).*2.

(** ** platform.go *)

Record Platform := mkPlatform {
  OS : string;
  Arch : string;
  Default : bool
}.

#[global] Instance Platform_eq_dec : EqDecision Platform.
Proof. solve_decision. Defined.

(** [func (p *Platform) String() string]. *)
Definition Platform_String (p : Platform) : string :=
  OS p +:+ "/" +:+ Arch p.

(** The first loop of [addDrop]: [dropMap[platform.String()] = true]. *)
Definition addDrop_dropMap (drop : list Platform) : gmap string bool :=
  foldl (λ dropMap platform, <[Platform_String platform := true]> dropMap)
        ∅ drop.

(** The body shared by the loops over [base] and [add]. *)
Definition addDrop_put (dropMap : gmap string bool)
    (platformMap : gmap string Platform) (platform : Platform)
    : gmap string Platform :=
  let key := Platform_String platform in
  if negb (getBool dropMap key) then <[key := platform]> platformMap
  else platformMap.

(** [platformMap] after the loops over [base] and [add]. *)
Definition addDrop_platformMap (base add drop : list Platform)
    : gmap string Platform :=
  let dropMap := addDrop_dropMap drop in
  let platformMap := foldl (addDrop_put dropMap) ∅ base in
  foldl (addDrop_put dropMap) platformMap add.

Definition addDrop (o : MapOrder) (base add drop : list Platform)
    : list Platform :=
  rangeValues o (addDrop_platformMap base add drop).

Definition Platforms_1_0 : list Platform := [
  mkPlatform "darwin" "386" true;
  mkPlatform "darwin" "amd64" true;
  mkPlatform "linux" "386" true;
  mkPlatform "linux" "amd64" true;
  mkPlatform "linux" "arm" true;
  mkPlatform "freebsd" "386" true;
  mkPlatform "freebsd" "amd64" true;
  mkPlatform "openbsd" "386" true;
  mkPlatform "openbsd" "amd64" true;
  mkPlatform "windows" "386" true;
  mkPlatform "windows" "amd64" true ].

Section Ladder.
Context (o : MapOrder).

Definition Platforms_1_1 : list Platform :=
  addDrop o Platforms_1_0 [
    mkPlatform "freebsd" "arm" true;
    mkPlatform "netbsd" "386" true;
    mkPlatform "netbsd" "amd64" true;
    mkPlatform "netbsd" "arm" true;
    mkPlatform "plan9" "386" false ] [].

Definition Platforms_1_3 : list Platform :=
  addDrop o Platforms_1_1 [
    mkPlatform "dragonfly" "386" false;
    mkPlatform "dragonfly" "amd64" false;
    mkPlatform "nacl" "amd64" false;
    mkPlatform "nacl" "amd64p32" false;
    mkPlatform "nacl" "arm" false;
    mkPlatform "solaris" "amd64" false ] [].

Definition Platforms_1_4 : list Platform :=
  addDrop o Platforms_1_3 [
    mkPlatform "android" "arm" false;
    mkPlatform "plan9" "amd64" false ] [].

Definition Platforms_1_5 : list Platform :=
  addDrop o Platforms_1_4 [
    mkPlatform "darwin" "arm" false;
    mkPlatform "darwin" "arm64" false;
    mkPlatform "linux" "arm64" false;
    mkPlatform "linux" "ppc64" false;
    mkPlatform "linux" "ppc64le" false ] [].

Definition Platforms_1_6 : list Platform :=
  addDrop o Platforms_1_5 [
    mkPlatform "android" "386" false;
    mkPlatform "android" "amd64" false;
    mkPlatform "linux" "mips64" false;
    mkPlatform "linux" "mips64le" false;
    mkPlatform "nacl" "386" false;
    mkPlatform "openbsd" "arm" true ] [].

(* derived from 1.5, not from 1.6, as in the source *)
Definition Platforms_1_7 : list Platform :=
  addDrop o Platforms_1_5 [
    mkPlatform "linux" "s390x" true;
    mkPlatform "plan9" "arm" false;
    mkPlatform "android" "386" false;
    mkPlatform "android" "amd64" false;
    mkPlatform "linux" "mips64" true;
    mkPlatform "linux" "mips64le" true;
    mkPlatform "nacl" "386" false;
    mkPlatform "openbsd" "arm" true ] [].

Definition Platforms_1_8 : list Platform :=
  addDrop o Platforms_1_7 [
    mkPlatform "linux" "mips" true;
    mkPlatform "linux" "mipsle" true ] [].

Definition Platforms_1_9 : list Platform := Platforms_1_8.

Definition Platforms_1_10 : list Platform :=
  addDrop o Platforms_1_9 [] [mkPlatform "android" "amd64" false].

Definition Platforms_1_11 : list Platform :=
  addDrop o Platforms_1_10 [mkPlatform "js" "wasm" true] [].

Definition Platforms_1_12 : list Platform :=
  addDrop o Platforms_1_11 [
    mkPlatform "aix" "ppc64" false;
    mkPlatform "windows" "arm" true ] [].

Definition Platforms_1_13 : list Platform :=
  addDrop o Platforms_1_12 [
    mkPlatform "illumos" "amd64" false;
    mkPlatform "netbsd" "arm64" true;
    mkPlatform "openbsd" "arm64" true ] [].

Definition Platforms_1_14 : list Platform :=
  addDrop o Platforms_1_13 [
    mkPlatform "freebsd" "arm64" true;
    mkPlatform "linux" "riscv64" true ] [
    mkPlatform "nacl" "386" false;
    mkPlatform "nacl" "amd64" false;
    mkPlatform "nacl" "arm" false ].

Definition Platforms_1_15 : list Platform :=
  addDrop o Platforms_1_14 [mkPlatform "android" "arm64" false]
    [mkPlatform "darwin" "386" false].

Definition Platforms_1_16 : list Platform :=
  addDrop o Platforms_1_15 [
    mkPlatform "android" "amd64" false;
    mkPlatform "darwin" "arm64" true;
    mkPlatform "openbsd" "mips64" false ] [].

Definition Platforms_1_17 : list Platform :=
  addDrop o Platforms_1_16 [mkPlatform "windows" "arm64" true] [].

Definition Platforms_1_18 : list Platform := Platforms_1_17.

Definition Platforms_1_19 : list Platform :=
  addDrop o Platforms_1_18 [mkPlatform "linux" "loong64" true] [].

Definition Platforms_1_20 : list Platform :=
  addDrop o Platforms_1_19 [mkPlatform "freebsd" "riscv64" true] [].

Definition Platforms_1_21 : list Platform :=
  addDrop o Platforms_1_20 [
    mkPlatform "android" "386" false;
    mkPlatform "android" "arm" false ] [].

Definition Platforms_1_22 : list Platform :=
  addDrop o Platforms_1_21 [] [].

Definition Platforms_1_23 : list Platform := Platforms_1_22.

Definition PlatformsLatest : list Platform := Platforms_1_23.
End Ladder.

(** ** Versions and constraints

    [SupportedPlatforms] relies on github.com/hashicorp/go-version, which
    is not part of the repository.  The three definitions it uses are
    modelled for plain dotted versions, the only ones the specification
    speaks of. *)

Definition digitValue (c : ascii) : option N :=
  let n := N_of_ascii c in
  if ((48 <=? n) && (n <=? 57))%N then Some (n - 48)%N else None.

Fixpoint parseDigits (s : string) (acc : N) : option N :=
  match s with
  | EmptyString => Some acc
  | String c s' => d ← digitValue c; parseDigits s' (10 * acc + d)%N
  end.

(** One segment of a version: a non-empty run of decimal digits that fits
    a signed 64-bit integer. *)
Definition parseSegment (s : string) : option N :=
  match s with
  | EmptyString => None
  | _ => n ← parseDigits s 0%N;
         if (n <=? 9223372036854775807)%N then Some n else None
  end.

(** Modelled from the spec: [version.NewVersion] of go-version, on "a
    dotted numeric version": an optional [v], then segments separated by
    dots, padded with zeros to three segments.  Anything else is a parse
    error ([None]); the pre-release and metadata suffixes that go-version
    also reads are not modelled. *)
Definition NewVersion (v : string) : option (list N) :=
  let v := match v with String "v" r => r | _ => v end in
  match mapM parseSegment (Split v ".") with
  | Some segments => Some (segments ++ replicate (3 - length segments) 0%N)
  | None => None
  end.

Fixpoint compareSegments (a b : list N) : comparison :=
  match a, b with
  | x :: a', y :: b' =>
      match (x ?= y)%N with
      | Eq => compareSegments a' b'
      | c => c
      end
  | _, _ => Eq
  end.

(** [Version.Compare]: segment by segment, the shorter version padded with
    zeros. *)
Definition Version_Compare (a b : list N) : comparison :=
  let n := length a `max` length b in
  compareSegments (a ++ replicate (n - length a) 0%N)
                  (b ++ replicate (n - length b) 0%N).

Inductive Operator := OpEq | OpNe | OpGt | OpLt | OpGe | OpLe.

Definition Operator_holds (op : Operator) (c : comparison) : bool :=
  match op, c with
  | OpEq, Eq | OpNe, Lt | OpNe, Gt | OpGt, Gt | OpLt, Lt
  | OpGe, Gt | OpGe, Eq | OpLe, Lt | OpLe, Eq => true
  | _, _ => false
  end.

Fixpoint trimLeft (s : string) : string :=
  match s with
  | String " " s' => trimLeft s'
  | _ => s
  end.

Fixpoint trimRight (s : string) : string :=
  match s with
  | EmptyString => EmptyString
  | String c s' =>
      match c, trimRight s' with
      | " "%char, EmptyString => EmptyString
      | _, r => String c r
      end
  end.

Definition trimSpace (s : string) : string := trimLeft (trimRight s).

(** One comparison of a constraint: an operator (none means [=]), blanks,
    a version. *)
Definition parseSingle (s : string) : option (Operator * list N) :=
  let s := trimSpace s in
  let '(op, rest) :=
    if HasPrefix s ">=" then (OpGe, sliceFrom 2 s)
    else if HasPrefix s "<=" then (OpLe, sliceFrom 2 s)
    else if HasPrefix s "!=" then (OpNe, sliceFrom 2 s)
    else if HasPrefix s ">" then (OpGt, sliceFrom 1 s)
    else if HasPrefix s "<" then (OpLt, sliceFrom 1 s)
    else if HasPrefix s "=" then (OpEq, sliceFrom 1 s)
    else (OpEq, s) in
  v ← NewVersion (trimLeft rest);
  Some (op, v).

(** Modelled from the spec: [version.NewConstraint] of go-version, for the
    "half-open version ranges" of the ladder: comparisons separated by
    commas, all of which must hold.  The pessimistic operator [~>] is not
    modelled. *)
Definition NewConstraint (s : string) : option (list (Operator * list N)) :=
  mapM parseSingle (Split s ",").

(** [Constraints.Check]. *)
Definition Constraints_Check (cs : list (Operator * list N))
    (v : list N) : bool :=
  forallb (λ c, Operator_holds c.1 (Version_Compare v c.2)) cs.

(** The loop over the ladder: the first entry whose constraint holds; a
    constraint that does not parse is a panic; [latest] when none holds. *)
Fixpoint SupportedPlatforms_ladder (current : list N)
    (platforms : list (string * list Platform)) (latest : list Platform)
    : option (list Platform) :=
  match platforms with
  | [] => Some latest
  | p :: rest =>
      constraints ← NewConstraint p.1;
      if Constraints_Check constraints current then Some p.2
      else SupportedPlatforms_ladder current rest latest
  end.

Section SupportedPlatforms.
Context (o : MapOrder).

Definition SupportedPlatforms_table : list (string * list Platform) := [
  ("<= 1.0", Platforms_1_0);
  (">= 1.1, < 1.3", Platforms_1_1 o);
  (">= 1.3, < 1.4", Platforms_1_3 o);
  (">= 1.4, < 1.5", Platforms_1_4 o);
  (">= 1.5, < 1.6", Platforms_1_5 o);
  (">= 1.6, < 1.7", Platforms_1_6 o);
  (">= 1.7, < 1.8", Platforms_1_7 o);
  (">= 1.8, < 1.9", Platforms_1_8 o);
  (">= 1.9, < 1.10", Platforms_1_9 o);
  (">= 1.10, < 1.11", Platforms_1_10 o);
  (">= 1.11, < 1.12", Platforms_1_11 o);
  (">= 1.12, < 1.13", Platforms_1_12 o);
  (">= 1.13, < 1.14", Platforms_1_13 o);
  (">= 1.14, < 1.15", Platforms_1_14 o);
  (">= 1.15, < 1.16", Platforms_1_15 o);
  (">= 1.16, < 1.17", Platforms_1_16 o);
  (">= 1.17, < 1.18", Platforms_1_17 o);
  (">= 1.18, < 1.19", Platforms_1_18 o);
  (">= 1.19, < 1.20", Platforms_1_19 o);
  (">= 1.20, < 1.21", Platforms_1_20 o);
  (">= 1.21, < 1.22", Platforms_1_21 o);
  (">= 1.22, < 1.23", Platforms_1_22 o);
  (">= 1.23", Platforms_1_23 o) ].

(** [SupportedPlatforms]; [None] is the [panic(err)] of the loop. *)
Definition SupportedPlatforms (v : string) : option (list Platform) :=
  if negb (HasPrefix v "go") then Some (PlatformsLatest o)
  else
    let v := sliceFrom 2 v in
    match NewVersion v with
    | None => Some (PlatformsLatest o)
    | Some current =>
        SupportedPlatforms_ladder current SupportedPlatforms_table
          (PlatformsLatest o)
    end.
End SupportedPlatforms.

(** ** The flag file *)

Record PlatformFlag := mkPlatformFlag {
  PlatformFlag_OS : list string;
  PlatformFlag_Arch : list string;
  PlatformFlag_OSArch : list Platform
}.

(** A loop whose body may panic: the first panic ends it. *)
Fixpoint foldlM {A B} (f : B → A → option B) (b : B) (l : list A)
    : option B :=
  match l with
  | [] => Some b
  | a :: l' => b' ← f b a; foldlM f b' l'
  end.

(** The body of the loops over [p.Arch] and [p.OS]; [maps] is the pair of
    the ignore map and the include map. *)
Definition Platforms_token (maps : gmap string bool * gmap string bool)
    (v : string) : option (gmap string bool * gmap string bool) :=
  c ← index0 v;
  if Ascii.eqb c "!" then Some (<[sliceFrom 1 v := true]> maps.1, maps.2)
  else Some (maps.1, <[v := true]> maps.2).

(** The body of the loop over [p.OSArch]. *)
Definition Platforms_pair (maps : gmap string bool * gmap string bool)
    (v : Platform) : option (gmap string bool * gmap string bool) :=
  c ← index0 (OS v);
  if Ascii.eqb c "!" then
    let platform :=
      {| OS := sliceFrom 1 (OS v); Arch := Arch v; Default := false |} in
    Some (<[Platform_String platform := true]> maps.1, maps.2)
  else Some (maps.1, <[Platform_String v := true]> maps.2).

(** The six maps built by the first part of [Platforms]. *)
Record Filters := mkFilters {
  ignoreArch : gmap string bool;
  includeArch : gmap string bool;
  ignoreOS : gmap string bool;
  includeOS : gmap string bool;
  ignoreOSArch : gmap string bool;
  includeOSArch : gmap string bool
}.

Definition Platforms_filters (p : PlatformFlag) : option Filters :=
  arch ← foldlM Platforms_token (∅, ∅) (PlatformFlag_Arch p);
  os ← foldlM Platforms_token (∅, ∅) (PlatformFlag_OS p);
  osarch ← foldlM Platforms_pair (∅, ∅) (PlatformFlag_OSArch p);
  Some (mkFilters arch.1 arch.2 os.1 os.2 osarch.1 osarch.2).

Definition Platforms_supportedMap (supported : list Platform)
    : gmap string Platform :=
  foldl (λ supportedMap platform,
           <[Platform_String platform := platform]> supportedMap)
        ∅ supported.

(** [platform.Default = false] on the copy that is appended. *)
Definition clearDefault (platform : Platform) : Platform :=
  {| OS := OS platform; Arch := Arch platform; Default := false |}.

(** [result] before the exclusion filters: the four branches. *)
Definition Platforms_result (o : MapOrder) (f : Filters)
    (supported : list Platform) : list Platform :=
  let supportedMap := Platforms_supportedMap supported in
  if 0 <? size (includeOSArch f) then
    rangeKeys o (includeOSArch f) ≫= λ platformStr,
      match supportedMap !! platformStr with
      | Some platform =>
          if negb (getBool (ignoreOSArch f) platformStr)
          then [clearDefault platform] else []
      | None => []
      end
  else if (0 <? size (includeOS f)) && (0 <? size (includeArch f)) then
    rangeKeys o (includeOS f) ≫= λ os,
      rangeKeys o (includeArch f) ≫= λ arch,
        let platform := {| OS := os; Arch := arch; Default := false |} in
        match supportedMap !! Platform_String platform with
        | Some _ => [platform]
        | None => []
        end
  else if 0 <? size (includeOS f) then
    rangeKeys o (includeOS f) ≫= λ os,
      supported ≫= λ platform,
        if String.eqb (OS platform) os then [clearDefault platform] else []
  else
    supported ≫= λ platform,
      if Default platform then [clearDefault platform] else [].

(** The body of the exclusion loop: [false] for [continue]. *)
Definition Platforms_keep (f : Filters) (platform : Platform) : bool :=
  let platformStr := Platform_String platform in
  if getBool (ignoreOSArch f) platformStr then false
  else if getBool (ignoreOS f) (OS platform)
          || getBool (ignoreArch f) (Arch platform) then false
  else if (size (includeOSArch f) =? 0) && (0 <? size (includeOS f))
          && negb (getBool (includeOS f) (OS platform)) then false
  else if (size (includeOSArch f) =? 0) && (0 <? size (includeArch f))
          && negb (getBool (includeArch f) (Arch platform)) then false
  else true.

(** [func (p *PlatformFlag) Platforms(supported []Platform) []Platform];
    [None] is the index-out-of-range panic of [v[0]] or [v.OS[0]]. *)
Definition Platforms (o : MapOrder) (p : PlatformFlag)
    (supported : list Platform) : option (list Platform) :=
  f ← Platforms_filters p;
  Some (filter (λ platform, Platforms_keep f platform)
               (Platforms_result o f supported)).

(** [appendIfMissing], of [appendPlatformValue] and of
    [appendStringValue]: the list unchanged when it holds [value]. *)
Fixpoint appendIfMissing {A} `{EqDecision A} (s : list A) (value : A)
    : list A :=
  match s with
  | [] => [value]
  | existing :: s' =>
      if decide (existing = value) then s
      else existing :: appendIfMissing s' value
  end.

Definition syntaxError (v : string) : string :=
  "Invalid platform syntax: " +:+ v +:+ " should be os/arch".

(** The loop of [appendPlatformValue.Set]; [len(parts) != 2] is the
    second case of the match.  The list is returned with the error: the
    entries appended before the offending token stay. *)
Fixpoint appendPlatformValue_Set_loop (s : list Platform)
    (tokens : list string) : list Platform * option string :=
  match tokens with
  | [] => (s, None)
  | v :: rest =>
      match Split v "/" with
      | [os; arch] =>
          let platform :=
            {| OS := ToLower os; Arch := ToLower arch; Default := false |} in
          appendPlatformValue_Set_loop (appendIfMissing s platform) rest
      | _ => (s, Some (syntaxError v))
      end
  end.

Definition appendPlatformValue_Set (s : list Platform) (value : string)
    : list Platform * option string :=
  if String.eqb value "" then (s, None)
  else appendPlatformValue_Set_loop s (Split value " ").

Definition appendStringValue_Set (s : list string) (value : string)
    : list string * option string :=
  (foldl (λ s v, if negb (String.eqb v "")
                 then appendIfMissing s (ToLower v) else s)
         s (Split value " "),
   None).

(** [strings.Join(elems, sep)]. *)
Fixpoint Join (elems : list string) (sep : string) : string :=
  match elems with
  | [] => ""
  | [e] => e
  | e :: rest => e +:+ sep +:+ Join rest sep
  end.

(** [func (s *appendStringValue) String() string]. *)
Definition appendStringValue_String (s : list string) : string := Join s " ".

(** [ArchFlagValue], [OSFlagValue] and [OSArchFlagValue] return a pointer
    to a field of the flag, seen as an [appendStringValue] or an
    [appendPlatformValue]: [Set] on the value updates the field in place.
    Each function below is [Set] on such a value: the flag after the call,
    and the error. *)
Definition ArchFlagValue_Set (p : PlatformFlag) (value : string)
    : PlatformFlag * option string :=
  let r := appendStringValue_Set (PlatformFlag_Arch p) value in
  ({| PlatformFlag_OS := PlatformFlag_OS p;
      PlatformFlag_Arch := r.1;
      PlatformFlag_OSArch := PlatformFlag_OSArch p |}, r.2).

Definition OSFlagValue_Set (p : PlatformFlag) (value : string)
    : PlatformFlag * option string :=
  let r := appendStringValue_Set (PlatformFlag_OS p) value in
  ({| PlatformFlag_OS := r.1;
      PlatformFlag_Arch := PlatformFlag_Arch p;
      PlatformFlag_OSArch := PlatformFlag_OSArch p |}, r.2).

Definition OSArchFlagValue_Set (p : PlatformFlag) (value : string)
    : PlatformFlag * option string :=
  let r := appendPlatformValue_Set (PlatformFlag_OSArch p) value in
  ({| PlatformFlag_OS := PlatformFlag_OS p;
      PlatformFlag_Arch := PlatformFlag_Arch p;
      PlatformFlag_OSArch := r.1 |}, r.2).

(** ** Notions of the specification *)

(** The (OS, Arch) identity of a platform: [Default] is not part of it. *)
Definition identity (p : Platform) : string * string := (OS p, Arch p).

(** A name without the separator of the canonical string form. *)
Fixpoint slashFree (s : string) : bool :=
  match s with
  | EmptyString => true
  | String c s' => negb (Ascii.eqb c "/") && slashFree s'
  end.

(** A token that carries the negation marker. *)
Definition negated (v : string) : bool :=
  match index0 v with
  | Some c => Ascii.eqb c "!"
  | None => false
  end.

(** The include set and the exclude set of an OS or Arch token list. *)
Definition includes (tokens : list string) : list string :=
  filter (λ v, negated v = false) tokens.

Definition excludes (tokens : list string) : list string :=
  sliceFrom 1 <$> filter (λ v, negated v = true) tokens.

(** The include set and the exclude set of a pair list; the marker is
    looked for on the OS side only. *)
Definition pairIncludes (pairs : list Platform) : list Platform :=
  filter (λ v, negated (OS v) = false) pairs.

Definition unmarked (v : Platform) : Platform :=
  {| OS := sliceFrom 1 (OS v); Arch := Arch v; Default := false |}.

Definition pairExcludes (pairs : list Platform) : list Platform :=
  unmarked <$> filter (λ v, negated (OS v) = true) pairs.

(** A filter request without a zero-length token: no OS or Arch token is
    empty, no pair has an empty OS side. *)
Definition wellFormed (p : PlatformFlag) : Prop :=
  Forall (λ v, v ≠ "") (PlatformFlag_OS p)
  ∧ Forall (λ v, v ≠ "") (PlatformFlag_Arch p)
  ∧ Forall (λ v, OS v ≠ "") (PlatformFlag_OSArch p).

(** A map of [true] entries, one per key of the list. *)
Definition markAll (m : gmap string bool) (ks : list string)
    : gmap string bool :=
  foldl (λ m k, <[k := true]> m) m ks.

(** A map from canonical strings to platforms, later entries replacing
    earlier ones. *)
Definition indexByKey (m : gmap string Platform) (l : list Platform)
    : gmap string Platform :=
  foldl (λ m p, <[Platform_String p := p]> m) m l.

(** The entries of a list that [drop] does not name. *)
Definition kept (drop l : list Platform) : list Platform :=
  filter (λ p, Platform_String p ∉ Platform_String <$> drop) l.

(** The six maps of a request, from its include and exclude sets. *)
Definition filtersOf (p : PlatformFlag) : Filters :=
  {| ignoreArch := markAll ∅ (excludes (PlatformFlag_Arch p));
     includeArch := markAll ∅ (includes (PlatformFlag_Arch p));
     ignoreOS := markAll ∅ (excludes (PlatformFlag_OS p));
     includeOS := markAll ∅ (includes (PlatformFlag_OS p));
     ignoreOSArch :=
       markAll ∅ (Platform_String <$> pairExcludes (PlatformFlag_OSArch p));
     includeOSArch :=
       markAll ∅ (Platform_String <$> pairIncludes (PlatformFlag_OSArch p))
  |}.

(** A platform that the exclusion pass drops: its canonical string is in
    the pair-exclude set, or its OS in the OS-exclude set, or its Arch in
    the Arch-exclude set. *)
Definition excluded (p : PlatformFlag) (q : Platform) : Prop :=
  Platform_String q
    ∈ Platform_String <$> pairExcludes (PlatformFlag_OSArch p)
  ∨ OS q ∈ excludes (PlatformFlag_OS p)
  ∨ Arch q ∈ excludes (PlatformFlag_Arch p).

#[global] Instance excluded_dec p q : Decision (excluded p q).
Proof. unfold excluded. apply _. Defined.

(** A pair token that does not split into exactly two parts on "/". *)
Definition malformed (v : string) : Prop := length (Split v "/") ≠ 2.

(** The tokens of a pair-flag value: none for the empty value, else the
    pieces between blanks. *)
Definition pairTokens (value : string) : list string :=
  if String.eqb value "" then [] else Split value " ".

(** The snapshots of the ladder, oldest first. *)
Definition ladder (o : MapOrder) : list (list Platform) :=
  (SupportedPlatforms_table o).*2 ++ [PlatformsLatest o].

(** A string in which the byte [c] does not occur. *)
Fixpoint freeOf (c : ascii) (s : string) : bool :=
  match s with
  | EmptyString => true
  | String d s' => negb (Ascii.eqb d c) && freeOf c s'
  end.

(** A token as the [Set] methods store it: not empty, without a blank, in
    lower case. *)
Definition storedToken (x : string) : Prop :=
  x ≠ "" ∧ freeOf " " x ∧ ToLower x = x.

(** A name as [appendPlatformValue.Set] stores it on either side of a
    pair: without "/" or blank, in lower case (it may be empty). *)
Definition storedName (x : string) : Prop :=
  freeOf "/" x ∧ freeOf " " x ∧ ToLower x = x.

(** The snapshot of the releases 1.m, for m from 1 on: the ladder read as
    a table of minor versions. *)
Definition snapshotOfMinor (o : MapOrder) (m : N) : list Platform :=
  if (m <? 3)%N then Platforms_1_1 o
  else if (m <? 4)%N then Platforms_1_3 o
  else if (m <? 5)%N then Platforms_1_4 o
  else if (m <? 6)%N then Platforms_1_5 o
  else if (m <? 7)%N then Platforms_1_6 o
  else if (m <? 8)%N then Platforms_1_7 o
  else if (m <? 9)%N then Platforms_1_8 o
  else if (m <? 10)%N then Platforms_1_9 o
  else if (m <? 11)%N then Platforms_1_10 o
  else if (m <? 12)%N then Platforms_1_11 o
  else if (m <? 13)%N then Platforms_1_12 o
  else if (m <? 14)%N then Platforms_1_13 o
  else if (m <? 15)%N then Platforms_1_14 o
  else if (m <? 16)%N then Platforms_1_15 o
  else if (m <? 17)%N then Platforms_1_16 o
  else if (m <? 18)%N then Platforms_1_17 o
  else if (m <? 19)%N then Platforms_1_18 o
  else if (m <? 20)%N then Platforms_1_19 o
  else if (m <? 21)%N then Platforms_1_20 o
  else if (m <? 22)%N then Platforms_1_21 o
  else if (m <? 23)%N then Platforms_1_22 o
  else Platforms_1_23 o.

(** The pair a token of the pair flag stands for: its two parts in lower
    case; none for a malformed token. *)
Definition pairOf (v : string) : option Platform :=
  match Split v "/" with
  | [os; arch] =>
      Some {| OS := ToLower os; Arch := ToLower arch; Default := false |}
  | _ => None
  end.

(** A pair as [appendPlatformValue.Set] stores it. *)
Definition storedPair (q : Platform) : Prop :=
  storedName (OS q) ∧ storedName (Arch q) ∧ Default q = false.

(** Another order: the one of [map_to_list], backwards. *)
Definition reversedOrder : MapOrder :=
  {| rangeMap := λ A m, reverse (map_to_list m);
     rangeMap_perm := λ A m, reverse_Permutation (map_to_list m) |}.

(** White space: blank, tab, line feed, vertical tab, form feed, carriage
    return. *)
Definition isSpace (c : ascii) : bool :=
  let n := N_of_ascii c in
  (n =? 32)%N || ((9 <=? n) && (n <=? 13))%N.

(** The whitespace-separated tokens of a value, in the words of the
    specification: the maximal runs of bytes that are not white space.
    None of them is empty. *)
Fixpoint whitespaceTokens (s : string) : list string :=
  match s with
  | EmptyString => []
  | String c s' =>
      if isSpace c then whitespaceTokens s'
      else match s' with
           | EmptyString => [String c EmptyString]
           | String d _ =>
               if isSpace d then String c EmptyString :: whitespaceTokens s'
               else match whitespaceTokens s' with
                    | w :: ws => String c w :: ws
                    | [] => [String c EmptyString]
                    end
           end
  end.

(** A string of ASCII bytes.  On such a string Go's [strings.ToLower] is
    [ToLower]: it moves the bytes ['A'..'Z'] and keeps the others. *)
Fixpoint isASCII (s : string) : bool :=
  match s with
  | EmptyString => true
  | String c s' => (N_of_ascii c <? 128)%N && isASCII s'
  end.

(** * Properties *)

(** ** The order of [range] *)

Section MapOrderFacts.
Context (o : MapOrder) {A : Type}.
Implicit Types m : gmap string A.

Lemma rangeMap_elem_of m k v : (k, v) ∈ rangeMap o m ↔ m !! k = Some v.
Proof. by rewrite (rangeMap_perm o), elem_of_map_to_list. Qed.

Lemma rangeMap_NoDup m : NoDup (rangeMap o m).
Proof. rewrite (rangeMap_perm o). apply NoDup_map_to_list. Qed.

Lemma rangeKeys_elem_of m k : k ∈ rangeKeys o m ↔ is_Some (m !! k).
Proof.
  unfold rangeKeys. rewrite list_elem_of_fmap. split.
  - intros [[k' v] [-> Hin]]. apply rangeMap_elem_of in Hin. by exists v.
  - intros [v Hv]. exists (k, v). split; [done|]. by apply rangeMap_elem_of.
Qed.

Lemma rangeKeys_NoDup m : NoDup (rangeKeys o m).
Proof.
  unfold rangeKeys. rewrite (rangeMap_perm o).
  apply NoDup_fst_map_to_list.
Qed.

Lemma rangeValues_elem_of m v : v ∈ rangeValues o m ↔ ∃ k, m !! k = Some v.
Proof.
  unfold rangeValues. rewrite list_elem_of_fmap. split.
  - intros [[k v'] [-> Hin]]. exists k. by apply rangeMap_elem_of.
  - intros [k Hk]. exists (k, v). split; [done|]. by apply rangeMap_elem_of.
Qed.

Lemma rangeMap_order (o' : MapOrder) m : rangeMap o m ≡ₚ rangeMap o' m.
Proof. by rewrite !rangeMap_perm. Qed.

Lemma rangeKeys_order (o' : MapOrder) m : rangeKeys o m ≡ₚ rangeKeys o' m.
Proof. unfold rangeKeys. by rewrite (rangeMap_order o'). Qed.

Lemma rangeValues_order (o' : MapOrder) m :
  rangeValues o m ≡ₚ rangeValues o' m.
Proof. unfold rangeValues. by rewrite (rangeMap_order o'). Qed.
End MapOrderFacts.

(** ** Maps built by the loops *)

Lemma markAll_lookup m ks k :
  markAll m ks !! k = if decide (k ∈ ks) then Some true else m !! k.
Proof.
  revert m. induction ks as [|a ks IH]; intros m.
  - by rewrite decide_False by apply not_elem_of_nil.
  - unfold markAll in *. simpl. rewrite IH.
    destruct (decide (k ∈ ks)) as [Hin|Hnin].
    + by rewrite decide_True by (by right).
    + destruct (decide (a = k)) as [->|Hne].
      * rewrite decide_True by left. apply lookup_insert_eq.
      * rewrite decide_False by (by intros [?|?]%elem_of_cons).
        by apply lookup_insert_ne.
Qed.

Lemma getBool_markAll ks k : getBool (markAll ∅ ks) k = true ↔ k ∈ ks.
Proof.
  unfold getBool. rewrite markAll_lookup.
  destruct (decide (k ∈ ks)); simpl; [done|].
  rewrite lookup_empty. simpl. split; [done|]. intros; contradiction.
Qed.

Lemma getBool_markAll_false ks k :
  getBool (markAll ∅ ks) k = false ↔ k ∉ ks.
Proof.
  rewrite <- getBool_markAll. by destruct (getBool (markAll ∅ ks) k).
Qed.

Lemma markAll_is_Some ks k : is_Some (markAll ∅ ks !! k) ↔ k ∈ ks.
Proof.
  rewrite markAll_lookup. destruct (decide (k ∈ ks)).
  - split; [done|]. by eexists.
  - rewrite lookup_empty. split; [by intros [? ?]|done].
Qed.

Lemma size_markAll_nil ks : size (markAll ∅ ks) = 0 ↔ ks = [].
Proof.
  rewrite map_size_empty_iff. split.
  - intros Hm. destruct ks as [|a ks]; [done|].
    assert (is_Some (markAll ∅ (a :: ks) !! a)) as [x Hx]
      by (apply markAll_is_Some; left).
    by rewrite Hm, lookup_empty in Hx.
  - by intros ->.
Qed.

Lemma size_markAll_pos ks : (0 <? size (markAll ∅ ks)) = negb (bool_decide (ks = [])).
Proof.
  destruct (decide (ks = [])) as [->|Hne].
  - done.
  - rewrite bool_decide_eq_false_2 by done. simpl. apply Nat.ltb_lt.
    assert (size (markAll ∅ ks) ≠ 0) by (by rewrite size_markAll_nil). lia.
Qed.

Lemma size_markAll_zero ks : (size (markAll ∅ ks) =? 0) = bool_decide (ks = []).
Proof.
  destruct (decide (ks = [])) as [->|Hne].
  - done.
  - rewrite bool_decide_eq_false_2 by done. apply Nat.eqb_neq.
    by rewrite size_markAll_nil.
Qed.

Lemma rangeKeys_markAll o ks k : k ∈ rangeKeys o (markAll ∅ ks) ↔ k ∈ ks.
Proof. by rewrite rangeKeys_elem_of, markAll_is_Some. Qed.

Lemma indexByKey_snoc m l p :
  indexByKey m (l ++ [p]) = <[Platform_String p := p]> (indexByKey m l).
Proof. unfold indexByKey. by rewrite foldl_app. Qed.

Lemma indexByKey_lookup m l k :
  indexByKey m l !! k =
    match last (filter (λ p, Platform_String p = k) l) with
    | Some p => Some p
    | None => m !! k
    end.
Proof.
  induction l as [|p l IH] using rev_ind; [done|].
  rewrite indexByKey_snoc, filter_app.
  destruct (decide (Platform_String p = k)) as [<-|Hne].
  - rewrite lookup_insert_eq, filter_cons_True, filter_nil by done.
    by rewrite last_snoc.
  - rewrite lookup_insert_ne, filter_cons_False, filter_nil by done.
    by rewrite app_nil_r.
Qed.

Lemma indexByKey_Some l k p :
  indexByKey ∅ l !! k = Some p → Platform_String p = k ∧ p ∈ l.
Proof.
  rewrite indexByKey_lookup.
  destruct (last _) as [q|] eqn:Hlast; [|by rewrite lookup_empty].
  intros [= ->]. apply last_Some_elem_of, list_elem_of_filter in Hlast.
  done.
Qed.

Lemma indexByKey_is_Some l k :
  is_Some (indexByKey ∅ l !! k) ↔ k ∈ Platform_String <$> l.
Proof.
  rewrite indexByKey_lookup, list_elem_of_fmap.
  destruct (last _) as [q|] eqn:Hlast.
  - apply last_Some_elem_of, list_elem_of_filter in Hlast as [<- Hin].
    split; [|by eexists]. intros _. by exists q.
  - rewrite lookup_empty. split; [by intros [? ?]|].
    intros [q [-> Hin]]. apply last_None in Hlast.
    assert (q ∈ filter (λ p, Platform_String p = Platform_String q) l) as Hq
      by (by apply list_elem_of_filter).
    rewrite Hlast in Hq. by apply not_elem_of_nil in Hq.
Qed.

(** ** General facts on lists *)

Lemma filter_ext_elem_of {A} (P Q : A → Prop)
    `{!∀ x, Decision (P x), !∀ x, Decision (Q x)} (l : list A) :
  (∀ x, x ∈ l → P x ↔ Q x) → filter P l = filter Q l.
Proof.
  induction l as [|a l IH]; intros Hext; [done|].
  rewrite !filter_cons, IH by (intros x Hx; apply Hext; by right).
  apply decide_ext, Hext. left.
Qed.

Lemma filter_unique_image {A B} `{EqDecision B} (f : A → B) (l : list A) p :
  NoDup (f <$> l) → p ∈ l → filter (λ x, f x = f p) l = [p].
Proof.
  induction l as [|a l IH]; intros Hnd Hin; [by apply not_elem_of_nil in Hin|].
  rewrite fmap_cons in Hnd. apply NoDup_cons in Hnd as [Ha Hnd].
  apply elem_of_cons in Hin as [->|Hin].
  - rewrite filter_cons_True by done. f_equal.
    destruct (filter (λ x, f x = f a) l) as [|b r] eqn:Hf; [done|].
    assert (b ∈ filter (λ x, f x = f a) l) as Hb by (rewrite Hf; left).
    apply list_elem_of_filter in Hb as [Hfb Hb]. exfalso. apply Ha.
    rewrite <- Hfb. apply list_elem_of_fmap. by exists b.
  - rewrite filter_cons_False; [by apply IH|].
    intros Hfa. apply Ha. rewrite Hfa. apply list_elem_of_fmap. by exists p.
Qed.

(** ** Strings *)

(** [Split] returns one piece at least: the last case of its inner match
    is never taken. *)
Lemma Split_nonempty s sep : Split s sep ≠ [].
Proof.
  destruct s as [|c s]; simpl; [done|].
  destruct (Ascii.eqb c sep); [done|]. by destruct (Split s sep).
Qed.

(** ** The canonical string form *)

Lemma append_nil_l s : "" +:+ s = s.
Proof. done. Qed.

Lemma append_cons_l c s t : String c s +:+ t = String c (s +:+ t).
Proof. done. Qed.

Lemma append_slash_inj s1 s2 a1 a2 :
  slashFree s1 → slashFree s2 →
  s1 +:+ "/" +:+ a1 = s2 +:+ "/" +:+ a2 → s1 = s2 ∧ a1 = a2.
Proof.
  revert s2. induction s1 as [|c s1 IH]; intros [|d s2];
    rewrite ?append_cons_l, ?append_nil_l; simpl; intros H1 H2 Heq.
  - by injection Heq as ->.
  - injection Heq as <- _. by rewrite Ascii.eqb_refl in H2.
  - injection Heq as -> _. by rewrite Ascii.eqb_refl in H1.
  - injection Heq as -> Heq.
    apply andb_prop_elim in H1 as [_ H1], H2 as [_ H2].
    destruct (IH s2 H1 H2 Heq) as [-> ->]. done.
Qed.

Lemma Platform_String_identity p q :
  identity p = identity q → Platform_String p = Platform_String q.
Proof. unfold identity, Platform_String. by intros [= -> ->]. Qed.

Lemma Platform_String_inj p q :
  slashFree (OS p) → slashFree (OS q) →
  Platform_String p = Platform_String q → identity p = identity q.
Proof.
  intros Hp Hq Heq. unfold identity.
  by destruct (append_slash_inj _ _ _ _ Hp Hq Heq) as [-> ->].
Qed.

Lemma Platform_String_clearDefault p :
  Platform_String (clearDefault p) = Platform_String p.
Proof. done. Qed.

(** ** [addDrop] *)

Lemma addDrop_dropMap_markAll drop :
  addDrop_dropMap drop = markAll ∅ (Platform_String <$> drop).
Proof. unfold addDrop_dropMap, markAll. by rewrite foldl_fmap. Qed.

Lemma addDrop_put_fold drop m l :
  foldl (addDrop_put (addDrop_dropMap drop)) m l = indexByKey m (kept drop l).
Proof.
  revert m. induction l as [|p l IH]; intros m; [done|].
  simpl. rewrite IH. unfold kept. rewrite filter_cons. unfold addDrop_put.
  rewrite addDrop_dropMap_markAll.
  destruct (decide (Platform_String p ∉ Platform_String <$> drop)) as [Hk|Hk].
  - apply getBool_markAll_false in Hk. by rewrite Hk.
  - apply dec_stable in Hk. apply getBool_markAll in Hk. by rewrite Hk.
Qed.

Lemma addDrop_platformMap_index base add drop :
  addDrop_platformMap base add drop = indexByKey ∅ (kept drop (base ++ add)).
Proof.
  unfold addDrop_platformMap. rewrite !addDrop_put_fold.
  unfold kept, indexByKey. by rewrite filter_app, foldl_app.
Qed.

Lemma addDrop_elem_of o base add drop p :
  p ∈ addDrop o base add drop ↔
  addDrop_platformMap base add drop !! Platform_String p = Some p.
Proof.
  unfold addDrop. rewrite rangeValues_elem_of, addDrop_platformMap_index.
  split; [|by eexists].
  intros [k Hk]. by destruct (indexByKey_Some _ _ _ Hk) as [<- _].
Qed.

Lemma addDrop_from o base add drop p :
  p ∈ addDrop o base add drop →
  p ∈ base ++ add ∧ Platform_String p ∉ Platform_String <$> drop.
Proof.
  rewrite addDrop_elem_of, addDrop_platformMap_index. intros Hp.
  apply indexByKey_Some in Hp as [_ Hp].
  apply list_elem_of_filter in Hp as [? ?]. done.
Qed.

Lemma addDrop_keys o base add drop :
  Platform_String <$> addDrop o base add drop
  = rangeKeys o (addDrop_platformMap base add drop).
Proof.
  unfold addDrop, rangeValues, rangeKeys. rewrite <- list_fmap_compose.
  apply Forall_fmap_ext, Forall_forall. intros [k p] Hin. simpl.
  apply rangeMap_elem_of in Hin. rewrite addDrop_platformMap_index in Hin.
  by apply indexByKey_Some in Hin as [? _].
Qed.

Lemma addDrop_key_elem_of o base add drop k :
  k ∈ Platform_String <$> addDrop o base add drop ↔
  k ∈ Platform_String <$> (base ++ add) ∧ k ∉ Platform_String <$> drop.
Proof.
  rewrite addDrop_keys, rangeKeys_elem_of, addDrop_platformMap_index.
  rewrite indexByKey_is_Some, !list_elem_of_fmap. unfold kept. split.
  - intros [p [-> Hp]]. apply list_elem_of_filter in Hp as [Hk Hp].
    split; [by exists p|]. by rewrite <- list_elem_of_fmap.
  - intros [[p [-> Hp]] Hk]. exists p. split; [done|].
    apply list_elem_of_filter. by rewrite list_elem_of_fmap.
Qed.

Lemma addDrop_NoDup_keys o base add drop :
  NoDup (Platform_String <$> addDrop o base add drop).
Proof. rewrite addDrop_keys. apply rangeKeys_NoDup. Qed.

Lemma addDrop_NoDup_identity o base add drop :
  NoDup (identity <$> addDrop o base add drop).
Proof.
  apply (NoDup_fmap_1 (λ i : string * string, i.1 +:+ "/" +:+ i.2)).
  rewrite <- list_fmap_compose. apply addDrop_NoDup_keys.
Qed.

(** An entry of [add] that is not dropped: the map holds the last entry of
    [add] with its canonical string. *)
Lemma addDrop_add_wins base add drop a :
  a ∈ add → Platform_String a ∉ Platform_String <$> drop →
  addDrop_platformMap base add drop !! Platform_String a
  = last (filter (λ x, Platform_String x = Platform_String a) add).
Proof.
  intros Ha Hk. rewrite addDrop_platformMap_index, indexByKey_lookup.
  unfold kept. rewrite !filter_app, last_app, list_filter_filter.
  rewrite (filter_ext_elem_of _ (λ x, Platform_String x = Platform_String a)
             add) by (intros x _; split; [tauto|intros Hx; by rewrite Hx]).
  destruct (last (filter _ add)) as [q|] eqn:Hlast; [done|].
  apply last_None in Hlast.
  assert (a ∈ filter (λ x, Platform_String x = Platform_String a) add) as Hin
    by (by apply list_elem_of_filter).
  rewrite Hlast in Hin. by apply not_elem_of_nil in Hin.
Qed.

(** C6.  [addDrop] as a set keyed by (OS, Arch) identity, for platform
    lists in which no OS name contains the separator "/" (the canonical
    string then determines the identity): the identities of the result are
    those of [base] and [add] that [drop] does not name; and an identity of
    [add] that is not dropped has exactly one entry in the result, the last
    entry of [add] with that identity, whatever [base] holds for it. *)
Theorem addDrop_set_semantics o base add drop :
  Forall (λ p, slashFree (OS p)) (base ++ add ++ drop) →
  (∀ i, i ∈ identity <$> addDrop o base add drop ↔
        i ∈ identity <$> (base ++ add) ∧ i ∉ identity <$> drop)
  ∧ (∀ a, a ∈ add → identity a ∉ identity <$> drop →
       ∃ p, filter (λ x, identity x = identity a) (addDrop o base add drop)
              = [p]
            ∧ last (filter (λ x, identity x = identity a) add) = Some p).
Proof.
  intros Hfree. rewrite app_assoc in Hfree.
  apply Forall_app in Hfree as [Hsrc Hdrop].
  rewrite Forall_forall in Hsrc, Hdrop.
  assert (∀ q, q ∈ base ++ add → identity q ∉ identity <$> drop →
            Platform_String q ∉ Platform_String <$> drop) as Hnodrop.
  { intros q Hq Hid [d [Heq Hd]]%list_elem_of_fmap. apply Hid.
    apply list_elem_of_fmap. exists d. split; [|done].
    apply Platform_String_inj; auto. }
  split.
  - intros i. split.
    + intros [p [-> Hp]]%list_elem_of_fmap.
      apply addDrop_from in Hp as [Hp Hk]. split.
      * apply list_elem_of_fmap. by exists p.
      * intros [d [Heq Hd]]%list_elem_of_fmap. apply Hk.
        apply list_elem_of_fmap. exists d.
        split; [by apply Platform_String_identity|done].
    + intros [[q [-> Hq]]%list_elem_of_fmap Hid].
      assert (Platform_String q ∈
                Platform_String <$> addDrop o base add drop) as Hin.
      { apply addDrop_key_elem_of. split; [|by apply Hnodrop].
        apply list_elem_of_fmap. by exists q. }
      apply list_elem_of_fmap in Hin as [p [Heq Hp]].
      apply list_elem_of_fmap. exists p. split; [|done].
      apply Platform_String_inj; auto.
      apply Hsrc. by apply addDrop_from in Hp as [? _].
  - intros a Ha Hid.
    assert (a ∈ base ++ add) as Ha' by (apply elem_of_app; by right).
    pose proof (addDrop_add_wins base add drop a Ha (Hnodrop a Ha' Hid))
      as Hwin.
    rewrite (filter_ext_elem_of _ (λ x, identity x = identity a) add)
      in Hwin.
    2:{ intros x Hx. split; [|apply Platform_String_identity].
        apply Platform_String_inj; apply Hsrc; [|done].
        apply elem_of_app; by right. }
    destruct (last (filter _ add)) as [p|] eqn:Hlast.
    2:{ apply last_None in Hlast.
        assert (a ∈ filter (λ x, identity x = identity a) add) as Hin
          by (by apply list_elem_of_filter).
        rewrite Hlast in Hin. by apply not_elem_of_nil in Hin. }
    exists p. split; [|done].
    pose proof Hlast as Hp.
    apply last_Some_elem_of, list_elem_of_filter in Hp as [Hpa Hp].
    rewrite <- Hpa. apply filter_unique_image.
    + apply addDrop_NoDup_identity.
    + apply addDrop_elem_of.
      by rewrite (Platform_String_identity _ _ Hpa).
Qed.

Lemma addDrop_set_semantics_witness :
  let base := [mkPlatform "darwin" "arm64" false;
               mkPlatform "darwin" "386" true] in
  let add := [mkPlatform "darwin" "arm64" true] in
  let drop := [mkPlatform "darwin" "386" false] in
  (∀ i, i ∈ identity <$> addDrop canonicalOrder base add drop ↔
        i ∈ identity <$> (base ++ add) ∧ i ∉ identity <$> drop)
  ∧ (∀ a, a ∈ add → identity a ∉ identity <$> drop →
       ∃ p, filter (λ x, identity x = identity a)
              (addDrop canonicalOrder base add drop) = [p]
            ∧ last (filter (λ x, identity x = identity a) add) = Some p).
Proof.
  intros base add drop.
  apply (addDrop_set_semantics canonicalOrder base add drop).
  repeat constructor.
Defined.

(** C6, as stated, fails on two inputs.  Two platforms with different
    identities and the same canonical string ("a/b" + "c" and "a" + "b/c")
    are one entry of the map, so the identity of the [base] entry is missing
    from the result though nothing is dropped; and an identity that is in
    [base], in [add] and in [drop] has no entry at all. *)
Lemma addDrop_set_semantics_counterexample :
  ¬ (∀ i, i ∈ identity <$> addDrop canonicalOrder
                 [mkPlatform "a/b" "c" true] [mkPlatform "a" "b/c" false] []
          ↔ i ∈ identity <$> ([mkPlatform "a/b" "c" true]
                              ++ [mkPlatform "a" "b/c" false])
            ∧ i ∉ identity <$> [])
  ∧ filter (λ x, identity x = ("linux", "amd64"))
      (addDrop canonicalOrder [mkPlatform "linux" "amd64" true]
         [mkPlatform "linux" "amd64" false]
         [mkPlatform "linux" "amd64" false]) = [].
Proof.
  split; [|by vm_compute].
  intros H. specialize (H ("a/b", "c")). destruct H as [_ H].
  assert (("a/b", "c") ∈ identity <$>
            addDrop canonicalOrder [mkPlatform "a/b" "c" true]
              [mkPlatform "a" "b/c" false] []) as Hin.
  { apply H. split; [left|apply not_elem_of_nil]. }
  vm_compute in Hin. apply list_elem_of_singleton in Hin. discriminate.
Qed.

(** C9.  No snapshot of the ladder, from [Platforms_1_0] to
    [PlatformsLatest], holds two entries with the same (OS, Arch) identity;
    and the result of [addDrop] never does, whatever its inputs, so every
    derived snapshot keeps the invariant. *)
Theorem ladder_no_duplicate o :
  Forall (λ snapshot, NoDup (identity <$> snapshot)) (ladder o)
  ∧ (∀ base add drop, NoDup (identity <$> addDrop o base add drop)).
Proof.
  split; [|apply addDrop_NoDup_identity].
  unfold ladder, SupportedPlatforms_table.
  repeat (apply Forall_cons_2; [try apply addDrop_NoDup_identity|]);
    [|apply Forall_nil_2].
  apply (bool_decide_unpack _). by vm_compute.
Qed.

(** C1.  Version resolution: "go1.16" resolves to [Platforms_1_16], which
    holds darwin/arm64 with [Default] set; "go0.9" is below the ladder's
    first bound "<= 1.0", which it satisfies, and resolves to the oldest
    snapshot [Platforms_1_0]; "nonsense" has no toolchain prefix and
    resolves to [PlatformsLatest]. *)
Theorem SupportedPlatforms_resolution o :
  SupportedPlatforms o "go1.16" = Some (Platforms_1_16 o)
  ∧ mkPlatform "darwin" "arm64" true ∈ Platforms_1_16 o
  ∧ SupportedPlatforms o "go0.9" = Some Platforms_1_0
  ∧ SupportedPlatforms o "nonsense" = Some (PlatformsLatest o).
Proof.
  repeat split; try reflexivity.
  apply addDrop_elem_of. rewrite addDrop_add_wins.
  - reflexivity.
  - right; left.
  - apply not_elem_of_nil.
Qed.

(** C1, as stated, fails for "go0.9": the snapshot returned is not the
    newest one, not even up to the order of its entries. *)
Lemma SupportedPlatforms_below_ladder :
  ¬ ∃ snapshot, SupportedPlatforms canonicalOrder "go0.9" = Some snapshot
                ∧ snapshot ≡ₚ PlatformsLatest canonicalOrder.
Proof.
  intros [snapshot [Hs Hperm]]. apply Permutation_length in Hperm.
  vm_compute in Hs. injection Hs as <-. vm_compute in Hperm. discriminate.
Qed.

(** ** The first part of [Platforms]: the six maps *)

Lemma negated_cons c r : negated (String c r) = Ascii.eqb c "!".
Proof. done. Qed.

Lemma Platforms_token_fold maps l :
  Forall (λ v, v ≠ "") l →
  foldlM Platforms_token maps l
  = Some (markAll maps.1 (excludes l), markAll maps.2 (includes l)).
Proof.
  revert maps. induction l as [|v l IH]; intros [ig inc] Hne; [done|].
  apply Forall_cons in Hne as [Hv Hne]. destruct v as [|c r]; [done|].
  unfold excludes, includes. rewrite !filter_cons, negated_cons.
  simpl. unfold Platforms_token. simpl.
  destruct (Ascii.eqb c "!"); simpl; by rewrite IH.
Qed.

Lemma foldlM_cons {A B} (f : B → A → option B) b a l :
  foldlM f b (a :: l) = f b a ≫= λ b', foldlM f b' l.
Proof. done. Qed.

Lemma Platforms_token_panic maps l :
  Exists (λ v, v = "") l → foldlM Platforms_token maps l = None.
Proof.
  revert maps. induction l as [|v l IH]; intros maps Hex;
    [by apply Exists_nil in Hex|].
  rewrite foldlM_cons.
  destruct (Platforms_token maps v) as [maps'|] eqn:Hstep; [simpl|done].
  apply Exists_cons in Hex as [->|Hex]; [done|]. by apply IH.
Qed.

Lemma Platforms_pair_fold maps l :
  Forall (λ v, OS v ≠ "") l →
  foldlM Platforms_pair maps l
  = Some (markAll maps.1 (Platform_String <$> pairExcludes l),
          markAll maps.2 (Platform_String <$> pairIncludes l)).
Proof.
  revert maps. induction l as [|v l IH]; intros [ig inc] Hne; [done|].
  apply Forall_cons in Hne as [Hv Hne].
  destruct v as [[|c r] arch d]; [done|].
  unfold pairExcludes, pairIncludes. rewrite !filter_cons. simpl.
  rewrite negated_cons. unfold Platforms_pair. simpl.
  destruct (Ascii.eqb c "!"); simpl; by rewrite IH.
Qed.

Lemma Platforms_pair_panic maps l :
  Exists (λ v, OS v = "") l → foldlM Platforms_pair maps l = None.
Proof.
  revert maps. induction l as [|v l IH]; intros maps Hex;
    [by apply Exists_nil in Hex|].
  rewrite foldlM_cons.
  destruct (Platforms_pair maps v) as [maps'|] eqn:Hstep; [simpl|done].
  apply Exists_cons in Hex as [Hv|Hex]; [|by apply IH].
  unfold Platforms_pair in Hstep. by rewrite Hv in Hstep.
Qed.

Lemma Platforms_filters_wellFormed p :
  wellFormed p → Platforms_filters p = Some (filtersOf p).
Proof.
  intros (Hos & Harch & Hpair). unfold Platforms_filters.
  rewrite (Platforms_token_fold _ _ Harch), (Platforms_token_fold _ _ Hos),
    (Platforms_pair_fold _ _ Hpair).
  done.
Qed.

Lemma Platforms_wellFormed o p supported :
  wellFormed p →
  Platforms o p supported
  = Some (filter (λ platform, Platforms_keep (filtersOf p) platform)
            (Platforms_result o (filtersOf p) supported)).
Proof.
  intros Hwf. unfold Platforms. by rewrite Platforms_filters_wellFormed.
Qed.

Lemma some_empty {A} (f : A → string) (l : list A) :
  ¬ Forall (λ v, f v ≠ "") l → Exists (λ v, f v = "") l.
Proof.
  induction l as [|a l IH]; intros Hnot.
  - destruct Hnot. constructor.
  - destruct (decide (f a = "")) as [Ha|Ha]; [by left|].
    right. apply IH. intros Hall. apply Hnot. by constructor.
Qed.

(** A zero-length token is the only way to the panic. *)
Lemma Platforms_panic_iff o p supported :
  Platforms o p supported = None ↔ ¬ wellFormed p.
Proof.
  split.
  - intros Hnone Hwf. by rewrite Platforms_wellFormed in Hnone.
  - intros Hnwf. unfold Platforms, Platforms_filters.
    destruct (decide (Forall (λ v, v ≠ "") (PlatformFlag_Arch p)))
      as [Harch|Harch].
    2:{ apply (some_empty id) in Harch.
        by rewrite (Platforms_token_panic _ (PlatformFlag_Arch p)). }
    rewrite (Platforms_token_fold _ _ Harch). simpl.
    destruct (decide (Forall (λ v, v ≠ "") (PlatformFlag_OS p)))
      as [Hos|Hos].
    2:{ apply (some_empty id) in Hos.
        by rewrite (Platforms_token_panic _ (PlatformFlag_OS p)). }
    rewrite (Platforms_token_fold _ _ Hos). simpl.
    destruct (decide (Forall (λ v, OS v ≠ "") (PlatformFlag_OSArch p)))
      as [Hpair|Hpair]; [by destruct Hnwf|].
    apply (some_empty OS) in Hpair.
    by rewrite (Platforms_pair_panic _ (PlatformFlag_OSArch p)).
Qed.

(** ** The exclusion pass *)

Lemma getBool_markAll_decide ks k :
  getBool (markAll ∅ ks) k = bool_decide (k ∈ ks).
Proof.
  destruct (decide (k ∈ ks)) as [Hin|Hnin].
  - rewrite bool_decide_eq_true_2 by done. by apply getBool_markAll.
  - rewrite bool_decide_eq_false_2 by done. by apply getBool_markAll_false.
Qed.

Lemma fmap_nil_decide {A B} `{EqDecision A, EqDecision B} (f : A → B) l :
  bool_decide (f <$> l = []) = bool_decide (l = []).
Proof.
  apply bool_decide_ext. split; [apply fmap_nil_inv|by intros ->].
Qed.

Lemma Platforms_keep_spec p q :
  Platforms_keep (filtersOf p) q = true ↔
    ¬ excluded p q
    ∧ (pairIncludes (PlatformFlag_OSArch p) = [] →
       includes (PlatformFlag_OS p) ≠ [] →
       OS q ∈ includes (PlatformFlag_OS p))
    ∧ (pairIncludes (PlatformFlag_OSArch p) = [] →
       includes (PlatformFlag_Arch p) ≠ [] →
       Arch q ∈ includes (PlatformFlag_Arch p)).
Proof.
  unfold Platforms_keep, excluded, filtersOf. simpl.
  rewrite !getBool_markAll_decide, !size_markAll_pos, !size_markAll_zero,
    fmap_nil_decide.
  repeat case_bool_decide; simpl; split; try done; try tauto.
Qed.

(** ** The four branches *)

Lemma Platforms_supportedMap_index supported :
  Platforms_supportedMap supported = indexByKey ∅ supported.
Proof. done. Qed.

Lemma includeOSArch_size p :
  (0 <? size (includeOSArch (filtersOf p)))
  = negb (bool_decide (pairIncludes (PlatformFlag_OSArch p) = [])).
Proof. simpl. by rewrite size_markAll_pos, fmap_nil_decide. Qed.

Lemma includeOS_size p :
  (0 <? size (includeOS (filtersOf p)))
  = negb (bool_decide (includes (PlatformFlag_OS p) = [])).
Proof. simpl. by rewrite size_markAll_pos. Qed.

(** First branch: some pair is included. *)
Lemma Platforms_result_pairs o p supported q :
  pairIncludes (PlatformFlag_OSArch p) ≠ [] →
  q ∈ Platforms_result o (filtersOf p) supported ↔
    ∃ s, Platforms_supportedMap supported !! Platform_String q = Some s
         ∧ q = clearDefault s
         ∧ Platform_String q
             ∈ Platform_String <$> pairIncludes (PlatformFlag_OSArch p)
         ∧ Platform_String q
             ∉ Platform_String <$> pairExcludes (PlatformFlag_OSArch p).
Proof.
  intros Hinc. unfold Platforms_result.
  rewrite includeOSArch_size, bool_decide_eq_false_2 by done. simpl.
  rewrite list_elem_of_bind. split.
  - intros [k [Hq Hk]]. apply rangeKeys_markAll in Hk.
    destruct (Platforms_supportedMap supported !! k) as [s|] eqn:Hs;
      [|by apply not_elem_of_nil in Hq].
    rewrite getBool_markAll_decide in Hq. case_bool_decide as Hex;
      simpl in Hq; [by apply not_elem_of_nil in Hq|].
    apply list_elem_of_singleton in Hq as ->.
    rewrite Platforms_supportedMap_index in Hs.
    destruct (indexByKey_Some _ _ _ Hs) as [<- _].
    exists s. rewrite Platform_String_clearDefault.
    by rewrite Platforms_supportedMap_index.
  - intros (s & Hs & -> & Hin & Hex).
    exists (Platform_String (clearDefault s)).
    split; [|by apply rangeKeys_markAll].
    rewrite Hs, getBool_markAll_decide, bool_decide_eq_false_2 by done.
    simpl. left.
Qed.

(** Second branch: no pair is included, some OS and some Arch are. *)
Lemma Platforms_result_cross o p supported q :
  pairIncludes (PlatformFlag_OSArch p) = [] →
  includes (PlatformFlag_OS p) ≠ [] →
  includes (PlatformFlag_Arch p) ≠ [] →
  q ∈ Platforms_result o (filtersOf p) supported ↔
    Default q = false
    ∧ OS q ∈ includes (PlatformFlag_OS p)
    ∧ Arch q ∈ includes (PlatformFlag_Arch p)
    ∧ Platform_String q ∈ Platform_String <$> supported.
Proof.
  intros Hpair Hos Harch. unfold Platforms_result.
  rewrite includeOSArch_size, includeOS_size, Hpair. simpl.
  rewrite size_markAll_pos, !bool_decide_eq_false_2 by done. simpl.
  rewrite list_elem_of_bind. split.
  - intros (os & [arch [Hq Harch']]%list_elem_of_bind & Hos').
    apply rangeKeys_markAll in Hos', Harch'.
    destruct (Platforms_supportedMap supported !! _) as [s|] eqn:Hs;
      [|by apply not_elem_of_nil in Hq].
    apply list_elem_of_singleton in Hq as ->. simpl.
    split_and!; try done.
    apply indexByKey_is_Some. rewrite <- Platforms_supportedMap_index.
    by eexists.
  - intros (Hd & Hos' & Harch' & [s Hs]%indexByKey_is_Some).
    exists (OS q). split; [|by apply rangeKeys_markAll].
    apply list_elem_of_bind. exists (Arch q).
    split; [|by apply rangeKeys_markAll].
    rewrite Platforms_supportedMap_index.
    replace (mkPlatform (OS q) (Arch q) false) with q
      by (destruct q; simpl in *; by subst).
    rewrite Hs. left.
Qed.

(** Third branch: no pair and no Arch is included, some OS is. *)
Lemma Platforms_result_os o p supported q :
  pairIncludes (PlatformFlag_OSArch p) = [] →
  includes (PlatformFlag_OS p) ≠ [] →
  includes (PlatformFlag_Arch p) = [] →
  q ∈ Platforms_result o (filtersOf p) supported ↔
    ∃ s, s ∈ supported ∧ OS s ∈ includes (PlatformFlag_OS p)
         ∧ q = clearDefault s.
Proof.
  intros Hpair Hos Harch. unfold Platforms_result.
  rewrite includeOSArch_size, includeOS_size, Hpair. simpl.
  rewrite size_markAll_pos, Harch, bool_decide_eq_false_2 by done. simpl.
  rewrite list_elem_of_bind. split.
  - intros (os & [s [Hq Hs]]%list_elem_of_bind & Hos').
    apply rangeKeys_markAll in Hos'. revert Hq.
    destruct (String.eqb_spec (OS s) os) as [<-|Hne];
      [|by intros ?%not_elem_of_nil].
    intros ->%list_elem_of_singleton. by exists s.
  - intros (s & Hs & Hos' & ->). exists (OS s).
    split; [|by apply rangeKeys_markAll].
    apply list_elem_of_bind. exists s. split; [|done].
    rewrite String.eqb_refl. left.
Qed.

(** Last branch: no pair and no OS is included. *)
Lemma Platforms_result_defaults o p supported :
  pairIncludes (PlatformFlag_OSArch p) = [] →
  includes (PlatformFlag_OS p) = [] →
  Platforms_result o (filtersOf p) supported
  = clearDefault <$> filter (λ s, Default s) supported.
Proof.
  intros Hpair Hos. unfold Platforms_result.
  rewrite includeOSArch_size, includeOS_size, Hpair, Hos. simpl.
  induction supported as [|s supported IH]; [done|].
  rewrite bind_cons, IH, filter_cons.
  by destruct (Default s).
Qed.

(** ** The order of [range] does not show beyond the order of the result *)

Lemma bind_Permutation_ext {A B} (f g : A → list B) (l l' : list A) :
  l ≡ₚ l' → (∀ x, f x ≡ₚ g x) → l ≫= f ≡ₚ l' ≫= g.
Proof.
  intros Hl Hfg. rewrite Hl. clear l Hl.
  induction l' as [|x l' IH]; [done|].
  by rewrite !bind_cons, IH, Hfg.
Qed.

Lemma Platforms_result_order o o' f supported :
  Platforms_result o f supported ≡ₚ Platforms_result o' f supported.
Proof.
  unfold Platforms_result.
  repeat case_match; repeat (apply bind_Permutation_ext; [|intros ?]);
    try done; apply rangeKeys_order.
Qed.

Lemma Platforms_order o o' p supported res' :
  Platforms o' p supported = Some res' →
  ∃ res, Platforms o p supported = Some res ∧ res ≡ₚ res'.
Proof.
  unfold Platforms. destruct (Platforms_filters p) as [f|]; [|done].
  simpl. intros [= <-]. eexists. split; [done|].
  by rewrite (Platforms_result_order o o').
Qed.

(** ** Tokens stored by the [Set] methods *)

Lemma ToLower_nonempty v : v ≠ "" → ToLower v ≠ "".
Proof. by destruct v. Qed.

Lemma appendIfMissing_elem_of {A} `{EqDecision A} (s : list A) value x :
  x ∈ appendIfMissing s value ↔ x ∈ s ∨ x = value.
Proof.
  induction s as [|a s IH]; simpl.
  - rewrite list_elem_of_singleton. split; [by right|].
    by intros [?%not_elem_of_nil|?].
  - case_decide as Ha.
    + split; [by left|]. intros [?| ->]; [done|]. subst. left.
    + rewrite !elem_of_cons, IH. tauto.
Qed.

Lemma appendStringValue_Set_elem_of s value x :
  x ∈ (appendStringValue_Set s value).1 ↔
    x ∈ s ∨ ∃ v, v ∈ Split value " " ∧ v ≠ "" ∧ x = ToLower v.
Proof.
  unfold appendStringValue_Set. simpl.
  generalize (Split value " ") as tokens. intros tokens. revert s.
  induction tokens as [|v tokens IH]; intros s; simpl.
  - split; [by left|]. intros [?|(v & ?%not_elem_of_nil & _)]; done.
  - rewrite IH. destruct (String.eqb_spec v "") as [->|Hv]; simpl.
    + split.
      * intros [?|(w & Hw & ? & ?)]; [by left|].
        right. exists w. split; [by right|done].
      * intros [?|(w & Hw & Hne & ?)]; [by left|].
        right. exists w. apply elem_of_cons in Hw as [->|Hw]; done.
    + rewrite appendIfMissing_elem_of. split.
      * intros [[?| ->]|(w & Hw & ? & ?)]; [by left| |].
        -- right. exists v. split; [left|done].
        -- right. exists w. split; [by right|done].
      * intros [?|(w & Hw & Hne & ->)]; [by left; left|].
        apply elem_of_cons in Hw as [->|Hw]; [by left; right|].
        right. by exists w.
Qed.

(** No zero-length token gets into an OS or Arch list. *)
Lemma appendStringValue_Set_nonempty s value :
  Forall (λ v, v ≠ "") s →
  Forall (λ v, v ≠ "") (appendStringValue_Set s value).1.
Proof.
  rewrite !Forall_forall. intros Hs x Hx.
  apply appendStringValue_Set_elem_of in Hx as [Hx|(v & _ & Hv & ->)].
  - by apply Hs.
  - by apply ToLower_nonempty.
Qed.

Lemma appendPlatformValue_Set_loop_error s tokens :
  (appendPlatformValue_Set_loop s tokens).2
  = syntaxError <$> head (filter malformed tokens).
Proof.
  revert s. induction tokens as [|v tokens IH]; intros s; [done|].
  simpl.
  destruct (Split v "/") as [|a [|b [|c r]]] eqn:Hparts; simpl;
    try (rewrite filter_cons_True by (unfold malformed; by rewrite Hparts);
         done).
  rewrite filter_cons_False
    by (unfold malformed; rewrite Hparts; intros Hlen; by apply Hlen).
  apply IH.
Qed.

Lemma head_filter_is_Some {A} (P : A → Prop) `{!∀ x, Decision (P x)} l :
  is_Some (head (filter P l)) ↔ Exists P l.
Proof.
  rewrite Exists_exists. split.
  - intros [x Hx]. exists x.
    assert (x ∈ filter P l) as Hin.
    { destruct (filter P l); simplify_eq/=. left. }
    apply list_elem_of_filter in Hin. tauto.
  - intros (x & Hx & HP).
    assert (x ∈ filter P l) as Hin by (by apply list_elem_of_filter).
    destruct (filter P l); [by apply not_elem_of_nil in Hin|by eexists].
Qed.



Lemma slashFree_sliceFrom s : slashFree s → slashFree (sliceFrom 1 s).
Proof. destruct s; [done|]. simpl. by intros [_ ?]%andb_prop_elim. Qed.

Lemma pairExcludes_slashFree pairs e :
  Forall (λ v, slashFree (OS v)) pairs → e ∈ pairExcludes pairs →
  slashFree (OS e).
Proof.
  rewrite Forall_forall. intros Hfree [v [-> Hv]]%list_elem_of_fmap.
  apply list_elem_of_filter in Hv as [_ Hv]. simpl.
  by apply slashFree_sliceFrom, Hfree.
Qed.

(** ** The claims on the platform filter *)



(** The example of C5: no filter, a snapshot of darwin/amd64 (default) and
    android/arm (not default). *)
Example Platforms_no_filter_example o :
  Platforms o (mkPlatformFlag [] [] [])
    [mkPlatform "darwin" "amd64" true; mkPlatform "android" "arm" false]
  = Some [mkPlatform "darwin" "amd64" false].
Proof. reflexivity. Qed.



(** The same request, evaluated: android/arm, which is not a default, is
    not returned. *)
Example Platforms_arch_includes_only_example o :
  Platforms o (mkPlatformFlag ["!windows"] ["arm"] [])
    [mkPlatform "linux" "arm" true; mkPlatform "android" "arm" false;
     mkPlatform "windows" "arm" true; mkPlatform "linux" "amd64" true]
  = Some [mkPlatform "linux" "arm" false].
Proof. reflexivity. Qed.

(** C7.  OS includes only: with the OS list "linux" and the snapshot
    linux/amd64, linux/arm, darwin/amd64 (whatever their [Default] flags),
    the result is linux/amd64 and linux/arm; with the Arch token "!arm"
    added, the result is linux/amd64 alone.  Results are compared up to
    their order. *)
Theorem Platforms_os_includes_example o d1 d2 d3 :
  let supported := [mkPlatform "linux" "amd64" d1;
                    mkPlatform "linux" "arm" d2;
                    mkPlatform "darwin" "amd64" d3] in
  (∃ res, Platforms o (mkPlatformFlag ["linux"] [] []) supported = Some res
          ∧ res ≡ₚ [mkPlatform "linux" "amd64" false;
                    mkPlatform "linux" "arm" false])
  ∧ (∃ res, Platforms o (mkPlatformFlag ["linux"] ["!arm"] []) supported
            = Some res
            ∧ res ≡ₚ [mkPlatform "linux" "amd64" false]).
Proof.
  intros supported.
  split; apply (Platforms_order o canonicalOrder);
    by destruct d1, d2, d3; vm_compute.
Qed.

(** C3.  When some pair is included, [Platforms] returns exactly the
    included pairs that exist in the snapshot and that no exclude filter
    names: not the pair-exclude set, and neither the OS-exclude set nor the
    Arch-exclude set, which the exclusion pass applies in every branch.
    The OS-include and Arch-include sets do not occur in the result.  The
    request has no zero-length token, and no OS name of the snapshot or of
    the pair list contains "/". *)
Theorem Platforms_pair_includes o p supported :
  wellFormed p →
  pairIncludes (PlatformFlag_OSArch p) ≠ [] →
  Forall (λ s, slashFree (OS s)) (supported ++ PlatformFlag_OSArch p) →
  ∃ res, Platforms o p supported = Some res ∧
    ∀ q, q ∈ res ↔
      Default q = false
      ∧ identity q ∈ identity <$> pairIncludes (PlatformFlag_OSArch p)
      ∧ identity q ∈ identity <$> supported
      ∧ (identity q ∉ identity <$> pairExcludes (PlatformFlag_OSArch p))
      ∧ (OS q ∉ excludes (PlatformFlag_OS p))
      ∧ (Arch q ∉ excludes (PlatformFlag_Arch p)).
Proof.
  intros Hwf Hinc Hfree.
  apply Forall_app in Hfree as [Hsup Hpairs].
  assert (∀ e, e ∈ pairExcludes (PlatformFlag_OSArch p) → slashFree (OS e))
    as Hexc by (intros e; by apply pairExcludes_slashFree).
  rewrite Forall_forall in Hsup. rewrite Forall_forall in Hpairs.
  assert (∀ i, i ∈ pairIncludes (PlatformFlag_OSArch p) → slashFree (OS i))
    as Hincl.
  { intros i [_ Hi]%list_elem_of_filter. by apply Hpairs. }
  eexists. split; [by apply Platforms_wellFormed|]. intros q.
  rewrite list_elem_of_filter, Is_true_true, Platforms_keep_spec,
    Platforms_result_pairs by done.
  unfold excluded. split.
  - intros [(Hnex & _ & _) (s & Hs & -> & Hin & Hout)].
    rewrite Platforms_supportedMap_index in Hs.
    apply indexByKey_Some in Hs as [_ Hs].
    split_and!; [done| | |intros [e [Heq He]]%list_elem_of_fmap|tauto|tauto].
    + apply list_elem_of_fmap in Hin as [i [Heq Hi]].
      apply list_elem_of_fmap. exists i. split; [|done].
      apply Platform_String_inj; [by apply (Hsup s)|by apply Hincl|done].
    + apply list_elem_of_fmap. by exists s.
    + apply Hout, list_elem_of_fmap. exists e.
      split; [by apply Platform_String_identity|done].
  - intros (Hd & [i [Hqi Hi]]%list_elem_of_fmap
              & [s' [Hqs Hs']]%list_elem_of_fmap & Hnpair & Hnos & Hnarch).
    assert (slashFree (OS q)) as Hq.
    { replace (OS q) with (OS s') by (by injection Hqs as -> _).
      by apply Hsup. }
    assert (Platform_String q
            ∉ Platform_String <$> pairExcludes (PlatformFlag_OSArch p))
      as Hout.
    { intros [e [Heq He]]%list_elem_of_fmap. apply Hnpair.
      apply list_elem_of_fmap. exists e. split; [|done].
      apply Platform_String_inj; [done|by apply Hexc|done]. }
    split; [split_and!; [tauto|done|done]|].
    assert (is_Some (Platforms_supportedMap supported !! Platform_String q))
      as [s Hs].
    { rewrite Platforms_supportedMap_index. apply indexByKey_is_Some.
      apply list_elem_of_fmap. exists s'.
      split; [by apply Platform_String_identity|done]. }
    exists s. split_and!; [done| |by apply list_elem_of_fmap;
      exists i; split; [apply Platform_String_identity|]|done].
    rewrite Platforms_supportedMap_index in Hs.
    apply indexByKey_Some in Hs as [Hkey Hs].
    apply Platform_String_inj in Hkey; [|by apply Hsup|done].
    destruct q, s. unfold identity, clearDefault in *. simpl in *.
    by simplify_eq.
Qed.

(** The example of C3: linux/amd64 and darwin/amd64 included, darwin/amd64
    excluded, along with an OS include and an Arch include that play no
    part. *)
Lemma Platforms_pair_includes_witness :
  let p := mkPlatformFlag ["windows"] ["arm"]
             [mkPlatform "linux" "amd64" false;
              mkPlatform "darwin" "amd64" false;
              mkPlatform "!darwin" "amd64" false] in
  let supported := [mkPlatform "linux" "amd64" true;
                    mkPlatform "linux" "arm" true;
                    mkPlatform "darwin" "amd64" true] in
  ∃ res, Platforms canonicalOrder p supported = Some res ∧
    ∀ q, q ∈ res ↔
      Default q = false
      ∧ identity q ∈ identity <$> pairIncludes (PlatformFlag_OSArch p)
      ∧ identity q ∈ identity <$> supported
      ∧ (identity q ∉ identity <$> pairExcludes (PlatformFlag_OSArch p))
      ∧ (OS q ∉ excludes (PlatformFlag_OS p))
      ∧ (Arch q ∉ excludes (PlatformFlag_Arch p)).
Proof.
  intros p supported.
  apply (Platforms_pair_includes canonicalOrder p supported).
  - repeat split; repeat constructor; discriminate.
  - discriminate.
  - repeat constructor.
Defined.

Example Platforms_pair_includes_example o :
  ∃ res,
    Platforms o
      (mkPlatformFlag ["windows"] ["arm"]
         [mkPlatform "linux" "amd64" false; mkPlatform "darwin" "amd64" false;
          mkPlatform "!darwin" "amd64" false])
      [mkPlatform "linux" "amd64" true; mkPlatform "linux" "arm" true;
       mkPlatform "darwin" "amd64" true] = Some res
    ∧ res ≡ₚ [mkPlatform "linux" "amd64" false].
Proof. apply (Platforms_order o canonicalOrder). by vm_compute. Qed.

(** C3, as stated, fails: an included pair that exists in the snapshot and
    is not in the pair-exclude set is still dropped when its OS is in the
    OS-exclude set. *)
Lemma Platforms_pair_includes_counterexample :
  let p := mkPlatformFlag ["!linux"] []
             [mkPlatform "linux" "amd64" false] in
  let supported := [mkPlatform "linux" "amd64" true] in
  pairIncludes (PlatformFlag_OSArch p) = [mkPlatform "linux" "amd64" false]
  ∧ pairExcludes (PlatformFlag_OSArch p) = []
  ∧ ("linux", "amd64") ∈ identity <$> supported
  ∧ Platforms canonicalOrder p supported = Some [].
Proof. split_and!; [reflexivity|reflexivity|left|reflexivity]. Qed.

(** Why the statement of C3 asks for names without "/": a snapshot entry
    and an included pair with different identities and one canonical
    string.  The entry returned is the snapshot's, which is no included
    pair. *)
Example Platforms_pair_includes_key_collision :
  Platforms canonicalOrder
    (mkPlatformFlag [] [] [mkPlatform "a" "b/c" false])
    [mkPlatform "a/b" "c" true] = Some [mkPlatform "a/b" "c" false].
Proof. reflexivity. Qed.

(** C2.  A token that is the negation marker alone, in the OS list or in
    the Arch list, is not reported: [appendStringValue.Set] never returns
    an error and stores the token, and [Platforms], on a request without
    zero-length token, returns a result in which the token stands for the
    exclusion of the empty name: no platform returned has an empty OS
    (an empty Arch, for the Arch list). *)
Theorem negation_marker_alone_accepted :
  (∀ s value,
     (appendStringValue_Set s value).2 = None
     ∧ ("!" ∈ Split value " " → "!" ∈ (appendStringValue_Set s value).1))
  ∧ (∀ o p supported, wellFormed p →
       ∃ res, Platforms o p supported = Some res
              ∧ ("!" ∈ PlatformFlag_OS p → ∀ q, q ∈ res → OS q ≠ "")
              ∧ ("!" ∈ PlatformFlag_Arch p → ∀ q, q ∈ res → Arch q ≠ "")).
Proof.
  split.
  - intros s value. split; [done|]. intros Hin.
    apply appendStringValue_Set_elem_of. right. by exists "!".
  - intros o p supported Hwf. eexists.
    split; [by apply Platforms_wellFormed|].
    split; intros Hin q [Hkeep _]%list_elem_of_filter Hempty;
      apply Is_true_true, Platforms_keep_spec in Hkeep as [Hnex _];
      apply Hnex; unfold excluded; rewrite Hempty.
    + right; left. apply list_elem_of_fmap. exists "!".
      split; [done|]. by apply list_elem_of_filter.
    + right; right. apply list_elem_of_fmap. exists "!".
      split; [done|]. by apply list_elem_of_filter.
Qed.

Lemma negation_marker_alone_accepted_witness :
  (∀ s value,
     (appendStringValue_Set s value).2 = None
     ∧ ("!" ∈ Split value " " → "!" ∈ (appendStringValue_Set s value).1))
  ∧ ∃ res, Platforms canonicalOrder (mkPlatformFlag ["!"] ["!"] [])
             Platforms_1_0 = Some res
           ∧ ("!" ∈ ["!"] → ∀ q, q ∈ res → OS q ≠ "")
           ∧ ("!" ∈ ["!"] → ∀ q, q ∈ res → Arch q ≠ "").
Proof.
  split; [apply negation_marker_alone_accepted|].
  apply (proj2 negation_marker_alone_accepted canonicalOrder
           (mkPlatformFlag ["!"] ["!"] []) Platforms_1_0).
  repeat split; repeat constructor; discriminate.
Defined.

(** C2, as stated, fails: the token "!" is stored without an error, and
    [Platforms] returns the same platforms as it does without the token. *)
Lemma negation_marker_alone_counterexample :
  appendStringValue_Set [] "!" = (["!"], None)
  ∧ Platforms canonicalOrder (mkPlatformFlag ["!"] [] [])
      [mkPlatform "darwin" "amd64" true; mkPlatform "android" "arm" false]
    = Some [mkPlatform "darwin" "amd64" false]
  ∧ Platforms canonicalOrder (mkPlatformFlag [] [] [])
      [mkPlatform "darwin" "amd64" true; mkPlatform "android" "arm" false]
    = Some [mkPlatform "darwin" "amd64" false].
Proof. split_and!; reflexivity. Qed.

(** C4.  The pair value "/amd64" has exactly one separator:
    [appendPlatformValue.Set] accepts it and stores a pair whose OS side is
    empty; [Platforms] then indexes [v.OS[0]] and panics, for every
    snapshot. *)
Theorem Platforms_empty_pair_OS_panics o supported :
  appendPlatformValue_Set [] "/amd64" = ([mkPlatform "" "amd64" false], None)
  ∧ Platforms o
      (mkPlatformFlag [] [] (appendPlatformValue_Set [] "/amd64").1)
      supported = None.
Proof. split; reflexivity. Qed.

(** C8.  Failures of the filter component.
    - [appendPlatformValue.Set] returns an error exactly when some token of
      the value is malformed, and the error names the first such token.
      The tokens are the pieces [strings.Split] cuts the value into at
      every single blank ([pairTokens]): an empty piece is a token, a tab
      separates nothing, and the empty value has no token;
    - the value "linuxamd64" yields the error naming it;
    - the empty string as an OS or Arch value yields no entry and no error;
    - [appendStringValue.Set] never returns an error;
    - [Platforms] returns a result for every request without zero-length
      token, and the empty list is such a result. *)
Theorem Set_failures :
  (∀ s value,
     (is_Some (appendPlatformValue_Set s value).2
      ↔ Exists malformed (pairTokens value))
     ∧ (appendPlatformValue_Set s value).2
       = syntaxError <$> head (filter malformed (pairTokens value)))
  ∧ (appendPlatformValue_Set [] "linuxamd64").2
    = Some "Invalid platform syntax: linuxamd64 should be os/arch"
  ∧ (∀ s, appendStringValue_Set s "" = (s, None))
  ∧ (∀ s value, (appendStringValue_Set s value).2 = None)
  ∧ (∀ o p supported, wellFormed p → is_Some (Platforms o p supported))
  ∧ (∀ o, Platforms o (mkPlatformFlag ["plan10"] [] []) Platforms_1_0
          = Some []).
Proof.
  split_and!; try done.
  - intros s value.
    assert ((appendPlatformValue_Set s value).2
            = syntaxError <$> head (filter malformed (pairTokens value)))
      as Herr.
    { unfold appendPlatformValue_Set, pairTokens.
      destruct (String.eqb value ""); [done|].
      apply appendPlatformValue_Set_loop_error. }
    split; [|done]. rewrite Herr, fmap_is_Some. apply head_filter_is_Some.
  - intros o p supported Hwf. rewrite Platforms_wellFormed by done.
    by eexists.
  - intros o.
    destruct (Platforms_order o canonicalOrder
                (mkPlatformFlag ["plan10"] [] []) Platforms_1_0 [])
      as (res & -> & Hres); [by vm_compute|].
    by apply Permutation_nil_r in Hres as ->.
Qed.

Lemma Set_failures_witness :
  is_Some (Platforms canonicalOrder
             (mkPlatformFlag ["linux"; "!"] ["!arm"]
                [mkPlatform "!darwin" "amd64" false]) Platforms_1_0).
Proof.
  apply (proj1 (proj2 (proj2 (proj2 (proj2 Set_failures))))).
  repeat split; repeat constructor; discriminate.
Defined.

(** C8, as stated, fails: the tokens of the code are not the
    whitespace-separated tokens of the value.  A blank at the end of the
    value makes an empty piece, and a tab separates nothing: [Set] returns
    an error although every whitespace-separated token splits into exactly
    two parts. *)
Lemma Set_failures_counterexample :
  (whitespaceTokens "linux/amd64 " = ["linux/amd64"]
   ∧ Forall (λ t, ¬ malformed t) (whitespaceTokens "linux/amd64 ")
   ∧ appendPlatformValue_Set [] "linux/amd64 "
     = ([mkPlatform "linux" "amd64" false], Some (syntaxError "")))
  ∧ (let value := "linux/amd64" +:+ String "009" "darwin/386" in
     whitespaceTokens value = ["linux/amd64"; "darwin/386"]
     ∧ Forall (λ t, ¬ malformed t) (whitespaceTokens value)
     ∧ appendPlatformValue_Set [] value = ([], Some (syntaxError value))).
Proof.
  split; split_and!; try (by vm_compute);
    vm_compute; repeat constructor; intros H; by apply H.
Qed.

(** * Further properties of the code *)

(** ** [addDrop] *)

Lemma at_most_one_with_key {A B} (f : A → B) (k : B) (l : list A) :
  NoDup (f <$> l) → (∀ x, x ∈ l → f x = k) → length l ≤ 1.
Proof.
  intros Hnd Hk. destruct l as [|a [|b l]]; simpl; [lia|lia|].
  exfalso. rewrite !fmap_cons in Hnd. apply NoDup_cons in Hnd as [Ha _].
  apply Ha. rewrite (Hk a), <- (Hk b) by (repeat constructor). left.
Qed.

Lemma Permutation_short {A} (l l' : list A) :
  length l ≤ 1 → l ≡ₚ l' → l = l'.
Proof.
  destruct l as [|a [|b l]]; simpl; intros Hlen Hperm; [| |lia].
  - by apply Permutation_nil_l.
  - by apply Permutation_singleton_l.
Qed.

Lemma NoDup_keys_filter (P : Platform → Prop) `{!∀ x, Decision (P x)} l :
  NoDup (Platform_String <$> l) → NoDup (Platform_String <$> filter P l).
Proof.
  intros Hnd. eapply sublist_NoDup; [done|].
  apply fmap_sublist, sublist_filter.
Qed.

(** The entry a list without duplicate key holds for a key does not depend
    on the order of the list, nor on the order of [drop]. *)
Lemma last_kept_Permutation k drop drop' l l' :
  drop ≡ₚ drop' → l ≡ₚ l' → NoDup (Platform_String <$> l) →
  last (filter (λ p, Platform_String p = k) (kept drop l))
  = last (filter (λ p, Platform_String p = k) (kept drop' l')).
Proof.
  intros Hdrop Hl Hnd. f_equal. apply Permutation_short.
  - apply (at_most_one_with_key Platform_String k).
    + by do 2 apply NoDup_keys_filter.
    + by intros x [? _]%list_elem_of_filter.
  - unfold kept. rewrite Hl.
    rewrite (list_filter_iff (λ p, Platform_String p ∉ Platform_String <$> drop)
               (λ p, Platform_String p ∉ Platform_String <$> drop')); [done|].
    intros x. by rewrite Hdrop.
Qed.

Lemma addDrop_platformMap_Permutation base base' add add' drop drop' :
  base ≡ₚ base' → add ≡ₚ add' → drop ≡ₚ drop' →
  NoDup (Platform_String <$> base) → NoDup (Platform_String <$> add) →
  addDrop_platformMap base add drop = addDrop_platformMap base' add' drop'.
Proof.
  intros Hbase Hadd Hdrop Hnb Hna. apply map_eq. intros k.
  rewrite !addDrop_platformMap_index, !indexByKey_lookup.
  unfold kept. rewrite !filter_app, !last_app. fold (kept drop add).
  fold (kept drop base). fold (kept drop' add'). fold (kept drop' base').
  rewrite (last_kept_Permutation k drop drop' add add') by done.
  by rewrite (last_kept_Permutation k drop drop' base base').
Qed.

Lemma addDrop_Permutation_base o o' base base' add drop :
  base ≡ₚ base' → NoDup (Platform_String <$> base) →
  addDrop o base add drop ≡ₚ addDrop o' base' add drop.
Proof.
  intros Hbase Hnd. unfold addDrop.
  rewrite (rangeValues_order o o'). f_equiv. apply map_eq. intros k.
  rewrite !addDrop_platformMap_index, !indexByKey_lookup.
  unfold kept. rewrite !filter_app, !last_app.
  fold (kept drop base). fold (kept drop base').
  by rewrite (last_kept_Permutation k drop drop base base').
Qed.

(** The entries [addDrop] returns when nothing is added: the entries of a
    [base] without duplicate key that [drop] does not name. *)
Lemma addDrop_nil_add_elem_of o base drop p :
  NoDup (Platform_String <$> base) →
  p ∈ addDrop o base [] drop ↔
    p ∈ base ∧ Platform_String p ∉ Platform_String <$> drop.
Proof.
  intros Hnd. split; [intros Hp; apply addDrop_from in Hp;
                      by rewrite app_nil_r in Hp|].
  intros [Hp Hk]. apply addDrop_elem_of.
  rewrite addDrop_platformMap_index, indexByKey_lookup, app_nil_r.
  unfold kept. rewrite list_filter_filter.
  assert (NoDup (Platform_String <$>
                   filter (λ x, Platform_String x
                                  ∉ Platform_String <$> drop) base))
    as Hnd' by (by apply NoDup_keys_filter).
  rewrite <- list_filter_filter.
  rewrite (filter_unique_image Platform_String _ p); [done|done|].
  by apply list_elem_of_filter.
Qed.

(** X1.  [addDrop] returns only entries of [base] or [add], and never one
    whose (OS, Arch) identity is in [drop], whatever the lists hold. *)
Theorem addDrop_sound o base add drop p :
  p ∈ addDrop o base add drop →
  (p ∈ base ∨ p ∈ add) ∧ identity p ∉ identity <$> drop.
Proof.
  intros [Hp Hk]%addDrop_from. split; [by apply elem_of_app|].
  intros [d [Heq Hd]]%list_elem_of_fmap. apply Hk.
  apply list_elem_of_fmap. exists d.
  split; [by apply Platform_String_identity|done].
Qed.

Lemma addDrop_sound_witness :
  (mkPlatform "linux" "arm" true ∈ [mkPlatform "linux" "arm" true]
   ∨ mkPlatform "linux" "arm" true ∈ [])
  ∧ identity (mkPlatform "linux" "arm" true)
      ∉ identity <$> [mkPlatform "nacl" "arm" false].
Proof.
  apply (addDrop_sound canonicalOrder [mkPlatform "linux" "arm" true] []
           [mkPlatform "nacl" "arm" false]).
  vm_compute. left.
Defined.

(** X2.  Dropping what is not there changes nothing: with nothing added
    and a [drop] that names no entry of a [base] without duplicate
    canonical string, [addDrop] returns the entries of [base], in some
    order. *)
Theorem addDrop_drop_absent o base drop :
  NoDup (Platform_String <$> base) →
  Forall (λ d, Platform_String d ∉ Platform_String <$> base) drop →
  addDrop o base [] drop ≡ₚ base.
Proof.
  intros Hnd Habsent. rewrite Forall_forall in Habsent.
  apply NoDup_Permutation.
  - eapply NoDup_fmap_1, addDrop_NoDup_keys.
  - by eapply NoDup_fmap_1.
  - intros p. rewrite addDrop_nil_add_elem_of by done.
    split; [tauto|]. intros Hp. split; [done|].
    intros [d [Heq Hd]]%list_elem_of_fmap. apply (Habsent d Hd).
    rewrite <- Heq. apply list_elem_of_fmap. by exists p.
Qed.

Lemma addDrop_drop_absent_witness :
  addDrop canonicalOrder Platforms_1_0 [] [mkPlatform "nacl" "arm" false]
  ≡ₚ Platforms_1_0.
Proof.
  apply (addDrop_drop_absent canonicalOrder Platforms_1_0
           [mkPlatform "nacl" "arm" false]).
  - apply (bool_decide_unpack _). by vm_compute.
  - apply (bool_decide_unpack _). by vm_compute.
Defined.

(** X3.  Dropping twice is dropping once: applying the same [drop] to a
    result of [addDrop] returns the same entries. *)
Theorem addDrop_drop_twice o o' base add drop :
  addDrop o' (addDrop o base add drop) [] drop ≡ₚ addDrop o base add drop.
Proof.
  apply NoDup_Permutation.
  - eapply NoDup_fmap_1, addDrop_NoDup_keys.
  - eapply NoDup_fmap_1, addDrop_NoDup_keys.
  - intros p. rewrite addDrop_nil_add_elem_of by apply addDrop_NoDup_keys.
    split; [tauto|]. intros Hp. split; [done|].
    by apply addDrop_from in Hp as [_ ?].
Qed.

(** X4.  The entries [addDrop] returns do not depend on the order of its
    three lists, nor on the order in which the map is ranged over, when
    [base] and [add] have no duplicate canonical string each: only the
    order of the result changes. *)
Theorem addDrop_order_independent o o' base base' add add' drop drop' :
  base ≡ₚ base' → add ≡ₚ add' → drop ≡ₚ drop' →
  NoDup (Platform_String <$> base) → NoDup (Platform_String <$> add) →
  addDrop o base add drop ≡ₚ addDrop o' base' add' drop'.
Proof.
  intros Hbase Hadd Hdrop Hnb Hna. unfold addDrop.
  rewrite (rangeValues_order o o').
  by rewrite (addDrop_platformMap_Permutation base base' add add' drop drop').
Qed.

Lemma addDrop_order_independent_witness :
  addDrop canonicalOrder
    [mkPlatform "linux" "arm" true; mkPlatform "nacl" "arm" false]
    [mkPlatform "js" "wasm" true; mkPlatform "linux" "arm" false]
    [mkPlatform "nacl" "arm" false]
  ≡ₚ addDrop canonicalOrder
       [mkPlatform "nacl" "arm" false; mkPlatform "linux" "arm" true]
       [mkPlatform "linux" "arm" false; mkPlatform "js" "wasm" true]
       [mkPlatform "nacl" "arm" false].
Proof.
  apply addDrop_order_independent.
  - apply perm_swap.
  - apply perm_swap.
  - reflexivity.
  - apply (bool_decide_unpack _). by vm_compute.
  - apply (bool_decide_unpack _). by vm_compute.
Defined.

(** X5.  An entry of [base] that [add] and [drop] do not name is returned
    as it is, its [Default] flag included, when [base] has no duplicate
    canonical string. *)
Theorem addDrop_base_kept o base add drop p :
  NoDup (Platform_String <$> base) →
  p ∈ base →
  Platform_String p ∉ Platform_String <$> add →
  Platform_String p ∉ Platform_String <$> drop →
  p ∈ addDrop o base add drop.
Proof.
  intros Hnd Hp Hadd Hdrop. apply addDrop_elem_of.
  rewrite addDrop_platformMap_index, indexByKey_lookup.
  unfold kept. rewrite !filter_app, last_app.
  assert (filter (λ x, Platform_String x = Platform_String p)
            (filter (λ x, Platform_String x ∉ Platform_String <$> drop) add)
          = []) as ->.
  { destruct (filter _ (filter _ add)) as [|a r] eqn:Hf; [done|].
    assert (a ∈ a :: r) as Ha by left. rewrite <- Hf in Ha.
    apply list_elem_of_filter in Ha as [Hka Ha].
    apply list_elem_of_filter in Ha as [_ Ha].
    exfalso. apply Hadd. rewrite <- Hka. apply list_elem_of_fmap.
    by exists a. }
  simpl.
  rewrite (filter_unique_image Platform_String _ p); [done| |].
  - by apply NoDup_keys_filter.
  - by apply list_elem_of_filter.
Qed.

Lemma addDrop_base_kept_witness :
  mkPlatform "linux" "arm" true
  ∈ addDrop canonicalOrder Platforms_1_0 [mkPlatform "js" "wasm" true]
      [mkPlatform "darwin" "386" false].
Proof.
  apply addDrop_base_kept.
  - apply (bool_decide_unpack _). by vm_compute.
  - apply (bool_decide_unpack _). by vm_compute.
  - apply (bool_decide_unpack _). by vm_compute.
  - apply (bool_decide_unpack _). by vm_compute.
Defined.

(** ** The ladder *)

Local Ltac next_snapshot H :=
  apply addDrop_Permutation_base; [exact H|apply addDrop_NoDup_keys].

(** X6.  The platforms of every snapshot of the ladder are the same
    whatever order the maps of [addDrop] are ranged over when the package
    is initialised: two initialisations differ by the order of the entries
    of each snapshot only. *)
Theorem ladder_order_independent o o' : Forall2 (≡ₚ) (ladder o) (ladder o').
Proof.
  assert (Platforms_1_1 o ≡ₚ Platforms_1_1 o') as H1_1.
  { apply addDrop_Permutation_base; [done|].
    apply (bool_decide_unpack _). by vm_compute. }
  assert (Platforms_1_3 o ≡ₚ Platforms_1_3 o') as H1_3
    by (next_snapshot H1_1).
  assert (Platforms_1_4 o ≡ₚ Platforms_1_4 o') as H1_4
    by (next_snapshot H1_3).
  assert (Platforms_1_5 o ≡ₚ Platforms_1_5 o') as H1_5
    by (next_snapshot H1_4).
  assert (Platforms_1_6 o ≡ₚ Platforms_1_6 o') as H1_6
    by (next_snapshot H1_5).
  assert (Platforms_1_7 o ≡ₚ Platforms_1_7 o') as H1_7
    by (next_snapshot H1_5).
  assert (Platforms_1_8 o ≡ₚ Platforms_1_8 o') as H1_8
    by (next_snapshot H1_7).
  assert (Platforms_1_9 o ≡ₚ Platforms_1_9 o') as H1_9 by exact H1_8.
  assert (Platforms_1_10 o ≡ₚ Platforms_1_10 o') as H1_10
    by (next_snapshot H1_9).
  assert (Platforms_1_11 o ≡ₚ Platforms_1_11 o') as H1_11
    by (next_snapshot H1_10).
  assert (Platforms_1_12 o ≡ₚ Platforms_1_12 o') as H1_12
    by (next_snapshot H1_11).
  assert (Platforms_1_13 o ≡ₚ Platforms_1_13 o') as H1_13
    by (next_snapshot H1_12).
  assert (Platforms_1_14 o ≡ₚ Platforms_1_14 o') as H1_14
    by (next_snapshot H1_13).
  assert (Platforms_1_15 o ≡ₚ Platforms_1_15 o') as H1_15
    by (next_snapshot H1_14).
  assert (Platforms_1_16 o ≡ₚ Platforms_1_16 o') as H1_16
    by (next_snapshot H1_15).
  assert (Platforms_1_17 o ≡ₚ Platforms_1_17 o') as H1_17
    by (next_snapshot H1_16).
  assert (Platforms_1_18 o ≡ₚ Platforms_1_18 o') as H1_18 by exact H1_17.
  assert (Platforms_1_19 o ≡ₚ Platforms_1_19 o') as H1_19
    by (next_snapshot H1_18).
  assert (Platforms_1_20 o ≡ₚ Platforms_1_20 o') as H1_20
    by (next_snapshot H1_19).
  assert (Platforms_1_21 o ≡ₚ Platforms_1_21 o') as H1_21
    by (next_snapshot H1_20).
  assert (Platforms_1_22 o ≡ₚ Platforms_1_22 o') as H1_22
    by (next_snapshot H1_21).
  assert (Platforms_1_23 o ≡ₚ Platforms_1_23 o') as H1_23 by exact H1_22.
  unfold ladder, SupportedPlatforms_table.
  constructor; [done|].
  constructor; [exact H1_1|].
  constructor; [exact H1_3|].
  constructor; [exact H1_4|].
  constructor; [exact H1_5|].
  constructor; [exact H1_6|].
  constructor; [exact H1_7|].
  constructor; [exact H1_8|].
  constructor; [exact H1_9|].
  constructor; [exact H1_10|].
  constructor; [exact H1_11|].
  constructor; [exact H1_12|].
  constructor; [exact H1_13|].
  constructor; [exact H1_14|].
  constructor; [exact H1_15|].
  constructor; [exact H1_16|].
  constructor; [exact H1_17|].
  constructor; [exact H1_18|].
  constructor; [exact H1_19|].
  constructor; [exact H1_20|].
  constructor; [exact H1_21|].
  constructor; [exact H1_22|].
  constructor; [exact H1_23|].
  constructor; [exact H1_23|]. constructor.
Qed.

(** ** [SupportedPlatforms] *)

Lemma SupportedPlatforms_ladder_step c cs plat rest current latest :
  NewConstraint c = Some cs →
  SupportedPlatforms_ladder current ((c, plat) :: rest) latest
  = if Constraints_Check cs current then Some plat
    else SupportedPlatforms_ladder current rest latest.
Proof. intros Hc. simpl. by rewrite Hc. Qed.

Lemma SupportedPlatforms_ladder_total current table latest :
  Forall (λ c, is_Some (NewConstraint c)) table.*1 →
  ∃ snapshot,
    SupportedPlatforms_ladder current table latest = Some snapshot
    ∧ snapshot ∈ table.*2 ++ [latest].
Proof.
  induction table as [|[c plat] table IH]; intros Hparse.
  - exists latest. split; [done|]. left.
  - rewrite fmap_cons in Hparse. apply Forall_cons in Hparse as [[cs Hc] Hparse].
    rewrite (SupportedPlatforms_ladder_step _ _ _ _ _ _ Hc).
    destruct (Constraints_Check cs current).
    + exists plat. split; [done|]. left.
    + destruct (IH Hparse) as (snapshot & Hs & Hin).
      exists snapshot. split; [done|]. by right.
Qed.

Lemma SupportedPlatforms_table_parses o :
  Forall (λ c, is_Some (NewConstraint c)) (SupportedPlatforms_table o).*1.
Proof.
  unfold SupportedPlatforms_table.
  repeat (apply Forall_cons_2; [by eexists|]). apply Forall_nil_2.
Qed.

(** X7.  [SupportedPlatforms] never reaches its [panic]: every constraint
    of the table parses, and for every version string the function returns
    one of the snapshots of the ladder. *)
Theorem SupportedPlatforms_total o v :
  ∃ snapshot, SupportedPlatforms o v = Some snapshot ∧ snapshot ∈ ladder o.
Proof.
  assert (PlatformsLatest o ∈ ladder o) as Hlatest.
  { unfold ladder. apply elem_of_app. right. left. }
  unfold SupportedPlatforms.
  destruct (negb (HasPrefix v "go")); [by eexists|].
  destruct (NewVersion (sliceFrom 2 v)) as [current|]; [|by eexists].
  apply SupportedPlatforms_ladder_total, SupportedPlatforms_table_parses.
Qed.

Lemma Version_Compare_3 a b c x y z :
  Version_Compare [a; b; c] [x; y; z]
  = match (a ?= x)%N with
    | Eq => match (b ?= y)%N with
            | Eq => match (c ?= z)%N with Eq => Eq | r => r end
            | r => r
            end
    | r => r
    end.
Proof. reflexivity. Qed.

Lemma Constraints_Check_range a b m p :
  Constraints_Check [(OpGe, [1; a; 0]%N); (OpLt, [1; b; 0]%N)] [1; m; p]%N
  = ((a <=? m)%N && (m <? b)%N).
Proof.
  unfold Constraints_Check. cbn [forallb fst snd].
  rewrite !Version_Compare_3, N.compare_refl, andb_true_r.
  destruct (N.compare_spec m a), (N.compare_spec m b),
    (N.compare_spec p 0), (N.leb_spec a m), (N.ltb_spec m b);
    simpl; try done; lia.
Qed.

Lemma Constraints_Check_from a m p :
  Constraints_Check [(OpGe, [1; a; 0]%N)] [1; m; p]%N = (a <=? m)%N.
Proof.
  unfold Constraints_Check. cbn [forallb fst snd].
  rewrite !Version_Compare_3, N.compare_refl, andb_true_r.
  destruct (N.compare_spec m a), (N.compare_spec p 0), (N.leb_spec a m);
    simpl; try done; lia.
Qed.

Lemma Constraints_Check_up_to_1_0 M m p :
  Constraints_Check [(OpLe, [1; 0; 0]%N)] [M; m; p]%N
  = ((M <? 1)%N || ((M =? 1)%N && (m =? 0)%N && (p =? 0)%N)).
Proof.
  unfold Constraints_Check. cbn [forallb fst snd].
  rewrite !Version_Compare_3, andb_true_r.
  destruct (N.compare_spec M 1), (N.compare_spec m 0),
    (N.compare_spec p 0), (N.ltb_spec M 1), (N.eqb_spec M 1),
    (N.eqb_spec m 0), (N.eqb_spec p 0); simpl; try done; lia.
Qed.

(** One turn of the loop, the constraint parsed by evaluation. *)
Local Ltac ladder_step :=
  match goal with
  | |- context [SupportedPlatforms_ladder ?cur ((?c, ?plat) :: ?rest) ?latest] =>
      let r := eval vm_compute in (NewConstraint c) in
      match r with
      | Some ?cs =>
          rewrite (SupportedPlatforms_ladder_step c cs plat rest cur latest
                     eq_refl)
      end
  end.

(** The loop on a version 1.m.p, as tests on the minor version. *)
Local Ltac ladder_tests :=
  unfold SupportedPlatforms_table; repeat ladder_step;
  rewrite Constraints_Check_up_to_1_0, !Constraints_Check_range,
    Constraints_Check_from.

(** The tests decided one after the other, the impossible cases closed by
    arithmetic. *)
Local Ltac decide_tests m :=
  repeat match goal with
         | |- context [(?a <=? m)%N] =>
             destruct (N.leb_spec a m); cbn [andb orb]; try lia
         | |- context [(m <? ?b)%N] =>
             destruct (N.ltb_spec m b); cbn [andb orb]; try lia
         | |- context [(m =? ?b)%N] =>
             destruct (N.eqb_spec m b); cbn [andb orb]; try lia
         end.

(** X8.  For a release 1.m.p with m from 1 on, [SupportedPlatforms]
    returns the snapshot of the minor version m: the ranges of the table
    leave no minor version out, the patch level p plays no part, and every
    minor version from 23 on gets [Platforms_1_23]. *)
Theorem SupportedPlatforms_minor o v m p :
  HasPrefix v "go" = true →
  NewVersion (sliceFrom 2 v) = Some [1; m; p]%N →
  (1 ≤ m)%N →
  SupportedPlatforms o v = Some (snapshotOfMinor o m).
Proof.
  intros Hgo Hv Hm. unfold SupportedPlatforms. rewrite Hgo, Hv. cbn [negb].
  ladder_tests. unfold snapshotOfMinor.
  replace (1 <? 1)%N with false by done.
  replace (1 =? 1)%N with true by done. cbn [orb andb].
  decide_tests m; reflexivity.
Qed.

Lemma SupportedPlatforms_minor_witness :
  SupportedPlatforms canonicalOrder "go1.21.4"
  = Some (snapshotOfMinor canonicalOrder 21).
Proof.
  apply (SupportedPlatforms_minor canonicalOrder "go1.21.4" 21 4);
    [reflexivity|reflexivity|lia].
Defined.

(** X9.  Around the first bound of the table, "<= 1.0": a version 0.m.p,
    and 1.0.0 itself, get [Platforms_1_0]; a patch release 1.0.p with p
    from 1 on is above "<= 1.0" and below ">= 1.1", matches no entry, and
    gets [PlatformsLatest]. *)
Theorem SupportedPlatforms_around_1_0 o v M m p :
  HasPrefix v "go" = true →
  NewVersion (sliceFrom 2 v) = Some [M; m; p]%N →
  (M = 0 ∨ M = 1 ∧ m = 0)%N →
  SupportedPlatforms o v
  = Some (if (M =? 0)%N || (p =? 0)%N then Platforms_1_0
          else PlatformsLatest o).
Proof.
  intros Hgo Hv HM. unfold SupportedPlatforms. rewrite Hgo, Hv. cbn [negb].
  destruct HM as [->|[-> ->]].
  - unfold SupportedPlatforms_table. ladder_step.
    by rewrite Constraints_Check_up_to_1_0.
  - ladder_tests. destruct (N.eqb_spec p 0) as [->|Hp]; reflexivity.
Qed.

Lemma SupportedPlatforms_around_1_0_witness :
  SupportedPlatforms canonicalOrder "go1.0.3"
  = Some (if (1 =? 0)%N || (3 =? 0)%N then Platforms_1_0
          else PlatformsLatest canonicalOrder).
Proof.
  apply (SupportedPlatforms_around_1_0 canonicalOrder "go1.0.3" 1 0 3);
    [reflexivity|reflexivity|right; split; reflexivity].
Defined.

(** The patch release 1.0.3, evaluated. *)
Example SupportedPlatforms_1_0_3 o :
  SupportedPlatforms o "go1.0.3" = Some (PlatformsLatest o).
Proof. reflexivity. Qed.

(** ** [Platforms] *)

Lemma Platforms_result_in_snapshot o p supported q :
  q ∈ Platforms_result o (filtersOf p) supported →
  Default q = false
  ∧ Platform_String q ∈ Platform_String <$> supported.
Proof.
  destruct (decide (pairIncludes (PlatformFlag_OSArch p) = [])) as [Hpair|Hpair].
  - destruct (decide (includes (PlatformFlag_OS p) = [])) as [Hos|Hos].
    + rewrite Platforms_result_defaults by done.
      intros [s [-> Hs]]%list_elem_of_fmap.
      apply list_elem_of_filter in Hs as [_ Hs].
      split; [done|]. apply list_elem_of_fmap. by exists s.
    + destruct (decide (includes (PlatformFlag_Arch p) = [])) as [Harch|Harch].
      * rewrite Platforms_result_os by done. intros (s & Hs & _ & ->).
        split; [done|]. apply list_elem_of_fmap. by exists s.
      * rewrite Platforms_result_cross by done. tauto.
  - rewrite Platforms_result_pairs by done. intros (s & Hs & -> & _).
    split; [done|]. rewrite Platforms_supportedMap_index in Hs.
    apply indexByKey_is_Some. by eexists.
Qed.

Lemma wellFormed_empty_token p :
  ¬ wellFormed p ↔
    "" ∈ PlatformFlag_OS p ∨ "" ∈ PlatformFlag_Arch p
    ∨ "" ∈ OS <$> PlatformFlag_OSArch p.
Proof.
  unfold wellFormed. rewrite !Forall_forall. split.
  - intros Hnot.
    destruct (decide ("" ∈ PlatformFlag_OS p)) as [|Hos]; [by left|].
    destruct (decide ("" ∈ PlatformFlag_Arch p)) as [|Harch];
      [by right; left|].
    destruct (decide ("" ∈ OS <$> PlatformFlag_OSArch p)) as [|Hpair];
      [by right; right|].
    destruct Hnot. split_and!.
    + by intros x Hx ->.
    + by intros x Hx ->.
    + intros x Hx Hempty. apply Hpair. rewrite <- Hempty.
      apply list_elem_of_fmap. by exists x.
  - intros [Hos|[Harch|[x [Hempty Hx]]%list_elem_of_fmap]] (H1 & H2 & H3).
    + by apply (H1 "").
    + by apply (H2 "").
    + by apply (H3 x).
Qed.

(** X10.  [Platforms] panics exactly when the request holds a zero-length
    token: an empty string in the OS list or in the Arch list, or a pair
    whose OS side is empty.  An empty Arch side of a pair is no cause of
    panic. *)
Theorem Platforms_panics_exactly o p supported :
  Platforms o p supported = None ↔
    "" ∈ PlatformFlag_OS p ∨ "" ∈ PlatformFlag_Arch p
    ∨ "" ∈ OS <$> PlatformFlag_OSArch p.
Proof. by rewrite Platforms_panic_iff, wellFormed_empty_token. Qed.

(** X11.  Every platform [Platforms] returns has its [Default] flag
    cleared, bears the canonical string of a platform of the snapshot, and
    is named by no exclude filter: neither its pair, nor its OS, nor its
    Arch. *)
Theorem Platforms_result_sound o p supported res q :
  Platforms o p supported = Some res → q ∈ res →
  Default q = false
  ∧ Platform_String q ∈ Platform_String <$> supported
  ∧ ¬ excluded p q.
Proof.
  intros Hres Hq.
  destruct (decide (wellFormed p)) as [Hwf|Hwf];
    [|by apply (Platforms_panic_iff o p supported) in Hwf; congruence].
  rewrite Platforms_wellFormed in Hres by done. injection Hres as <-.
  apply list_elem_of_filter in Hq as [Hkeep Hq].
  apply Is_true_true, Platforms_keep_spec in Hkeep as [Hnex _].
  apply Platforms_result_in_snapshot in Hq. tauto.
Qed.

Lemma Platforms_result_sound_witness :
  Default (mkPlatform "linux" "amd64" false) = false
  ∧ Platform_String (mkPlatform "linux" "amd64" false)
      ∈ Platform_String <$> Platforms_1_0
  ∧ ¬ excluded (mkPlatformFlag ["linux"] ["!arm"] [])
        (mkPlatform "linux" "amd64" false).
Proof.
  apply (Platforms_result_sound canonicalOrder
           (mkPlatformFlag ["linux"] ["!arm"] []) Platforms_1_0
           [mkPlatform "linux" "386" false; mkPlatform "linux" "amd64" false]).
  - by vm_compute.
  - right; left.
Defined.

(** X12.  With no pair included and both an OS and an Arch included,
    [Platforms] returns the pairs of an included OS and an included Arch
    whose canonical string is in the snapshot and that no exclude filter
    names, their [Default] flag cleared. *)
Theorem Platforms_cross_product o p supported :
  wellFormed p →
  pairIncludes (PlatformFlag_OSArch p) = [] →
  includes (PlatformFlag_OS p) ≠ [] →
  includes (PlatformFlag_Arch p) ≠ [] →
  ∃ res, Platforms o p supported = Some res ∧
    ∀ q, q ∈ res ↔
      Default q = false
      ∧ OS q ∈ includes (PlatformFlag_OS p)
      ∧ Arch q ∈ includes (PlatformFlag_Arch p)
      ∧ Platform_String q ∈ Platform_String <$> supported
      ∧ ¬ excluded p q.
Proof.
  intros Hwf Hpair Hos Harch. eexists.
  split; [by apply Platforms_wellFormed|]. intros q.
  rewrite list_elem_of_filter, Is_true_true, Platforms_keep_spec,
    Platforms_result_cross by done.
  tauto.
Qed.

Lemma Platforms_cross_product_witness :
  let p := mkPlatformFlag ["linux"; "darwin"] ["arm"; "amd64"; "!386"] [] in
  ∃ res, Platforms canonicalOrder p Platforms_1_0 = Some res ∧
    ∀ q, q ∈ res ↔
      Default q = false
      ∧ OS q ∈ includes (PlatformFlag_OS p)
      ∧ Arch q ∈ includes (PlatformFlag_Arch p)
      ∧ Platform_String q ∈ Platform_String <$> Platforms_1_0
      ∧ ¬ excluded p q.
Proof.
  intros p. apply (Platforms_cross_product canonicalOrder p Platforms_1_0).
  - repeat split; repeat constructor; discriminate.
  - reflexivity.
  - discriminate.
  - discriminate.
Defined.



(** X14.  The order in which Go ranges over the maps of [Platforms] shows
    in the order of the result only: two runs on the same request and
    snapshot both panic, or return the same platforms the same number of
    times. *)
Theorem Platforms_order_independent o o' p supported :
  option_Forall2 (≡ₚ) (Platforms o p supported) (Platforms o' p supported).
Proof.
  destruct (Platforms o' p supported) as [res'|] eqn:Hres'.
  - destruct (Platforms_order o o' p supported res' Hres')
      as (res & -> & Hperm).
    by constructor.
  - apply Platforms_panic_iff in Hres'.
    apply (Platforms_panic_iff o p supported) in Hres'. rewrite Hres'.
    constructor.
Qed.

Lemma markAll_ext ks ks' :
  (∀ k, k ∈ ks ↔ k ∈ ks') → markAll ∅ ks = markAll ∅ ks'.
Proof.
  intros Hext. apply map_eq. intros k. rewrite !markAll_lookup.
  apply decide_ext, Hext.
Qed.

Lemma fmap_elem_of_ext {A B} (f : A → B) (l l' : list A) :
  (∀ x, x ∈ l ↔ x ∈ l') → ∀ y, y ∈ f <$> l ↔ y ∈ f <$> l'.
Proof.
  intros Hext y. rewrite !list_elem_of_fmap.
  split; intros [x [-> Hx]]; exists x; (split; [done|]); by apply Hext.
Qed.

Lemma filter_elem_of_ext {A} (P : A → Prop) `{!∀ x, Decision (P x)}
    (l l' : list A) :
  (∀ x, x ∈ l ↔ x ∈ l') → ∀ x, x ∈ filter P l ↔ x ∈ filter P l'.
Proof. intros Hext x. by rewrite !list_elem_of_filter, Hext. Qed.

Lemma Forall_elem_of_ext {A} (P : A → Prop) (l l' : list A) :
  (∀ x, x ∈ l ↔ x ∈ l') → Forall P l ↔ Forall P l'.
Proof.
  intros Hext. rewrite !Forall_forall.
  split; intros H x Hx; by apply H, Hext.
Qed.

(** Under one order of [range], two requests whose lists hold the same
    elements give the same list. *)
Lemma Platforms_same_elements o p p' supported :
  (∀ x, x ∈ PlatformFlag_OS p ↔ x ∈ PlatformFlag_OS p') →
  (∀ x, x ∈ PlatformFlag_Arch p ↔ x ∈ PlatformFlag_Arch p') →
  (∀ x, x ∈ PlatformFlag_OSArch p ↔ x ∈ PlatformFlag_OSArch p') →
  Platforms o p supported = Platforms o p' supported.
Proof.
  intros Hos Harch Hpair.
  assert (wellFormed p ↔ wellFormed p') as Hwf.
  { unfold wellFormed.
    by rewrite (Forall_elem_of_ext _ _ _ Hos),
      (Forall_elem_of_ext _ _ _ Harch), (Forall_elem_of_ext _ _ _ Hpair). }
  destruct (decide (wellFormed p)) as [Hp|Hp].
  - rewrite !Platforms_wellFormed by tauto.
    replace (filtersOf p') with (filtersOf p); [done|].
    unfold filtersOf, includes, excludes, pairIncludes, pairExcludes.
    f_equal; apply markAll_ext;
      repeat first [apply fmap_elem_of_ext | apply filter_elem_of_ext];
      done.
  - transitivity (@None (list Platform)); [|symmetry];
      apply Platforms_panic_iff; tauto.
Qed.

(** Two runs on one request and one snapshot, each with its own order. *)
Lemma Platforms_order_option o o' p supported :
  option_Forall2 (≡ₚ) (Platforms o p supported) (Platforms o' p supported).
Proof.
  destruct (Platforms o' p supported) as [res'|] eqn:Hres'.
  - destruct (Platforms_order o o' p supported res' Hres')
      as (res & -> & Hperm).
    by constructor.
  - apply Platforms_panic_iff in Hres'.
    apply (Platforms_panic_iff o p supported) in Hres'. rewrite Hres'.
    constructor.
Qed.

(** X15.  [Platforms] reads its three lists as sets: two requests whose
    OS lists, Arch lists and pair lists hold the same elements, in any
    order and any number of times, give the same result on every
    snapshot, up to the order of the result: each call ranges over its
    maps in an order of its own, so both panic, or both return the same
    platforms the same number of times. *)
Theorem Platforms_lists_as_sets o o' p p' supported :
  (∀ x, x ∈ PlatformFlag_OS p ↔ x ∈ PlatformFlag_OS p') →
  (∀ x, x ∈ PlatformFlag_Arch p ↔ x ∈ PlatformFlag_Arch p') →
  (∀ x, x ∈ PlatformFlag_OSArch p ↔ x ∈ PlatformFlag_OSArch p') →
  option_Forall2 (≡ₚ) (Platforms o p supported) (Platforms o' p' supported).
Proof.
  intros Hos Harch Hpair.
  rewrite (Platforms_same_elements o p p' supported) by done.
  apply Platforms_order_option.
Qed.

Lemma Platforms_lists_as_sets_witness :
  option_Forall2 (≡ₚ)
    (Platforms canonicalOrder
       (mkPlatformFlag ["linux"; "darwin"; "!windows"] ["arm"; "amd64"] [])
       Platforms_1_0)
    (Platforms reversedOrder
       (mkPlatformFlag ["!windows"; "darwin"; "linux"; "darwin"]
          ["amd64"; "arm"; "arm"] [])
       Platforms_1_0).
Proof.
  apply Platforms_lists_as_sets; intros x; simpl;
    rewrite ?elem_of_cons; tauto.
Defined.

Lemma negated_marker x : negated ("!" +:+ x) = true.
Proof. done. Qed.

Lemma includes_snoc_negated l x : includes (l ++ ["!" +:+ x]) = includes l.
Proof.
  unfold includes. rewrite filter_app, filter_cons_False, filter_nil.
  - apply app_nil_r.
  - by rewrite negated_marker.
Qed.

Lemma excludes_snoc_negated l x :
  excludes (l ++ ["!" +:+ x]) = excludes l ++ [x].
Proof.
  unfold excludes.
  rewrite filter_app, filter_cons_True, filter_nil by apply negated_marker.
  by rewrite fmap_app.
Qed.

Lemma wellFormed_snoc_OS p x :
  wellFormed
    (mkPlatformFlag (PlatformFlag_OS p ++ ["!" +:+ x]) (PlatformFlag_Arch p)
       (PlatformFlag_OSArch p))
  ↔ wellFormed p.
Proof.
  unfold wellFormed. simpl. rewrite Forall_app, Forall_singleton.
  split; [tauto|]. intros (? & ? & ?). by split_and!.
Qed.

Lemma wellFormed_snoc_Arch p x :
  wellFormed
    (mkPlatformFlag (PlatformFlag_OS p) (PlatformFlag_Arch p ++ ["!" +:+ x])
       (PlatformFlag_OSArch p))
  ↔ wellFormed p.
Proof.
  unfold wellFormed. simpl. rewrite Forall_app, Forall_singleton.
  split; [tauto|]. intros (? & ? & ?). by split_and!.
Qed.

(** Under one order of [range], the result with one more exclude token is
    the list without it, filtered. *)
Lemma Platforms_one_more_exclude o p supported x :
  Platforms o
    (mkPlatformFlag (PlatformFlag_OS p ++ ["!" +:+ x]) (PlatformFlag_Arch p)
       (PlatformFlag_OSArch p)) supported
  = filter (λ q, OS q ≠ x) <$> Platforms o p supported
  ∧ Platforms o
      (mkPlatformFlag (PlatformFlag_OS p) (PlatformFlag_Arch p ++ ["!" +:+ x])
         (PlatformFlag_OSArch p)) supported
    = filter (λ q, Arch q ≠ x) <$> Platforms o p supported.
Proof.
  destruct (decide (wellFormed p)) as [Hwf|Hwf].
  2:{ pose proof Hwf as Hnone.
      apply (Platforms_panic_iff o p supported) in Hnone. rewrite Hnone.
      split; apply Platforms_panic_iff;
        by rewrite ?wellFormed_snoc_OS, ?wellFormed_snoc_Arch. }
  rewrite !Platforms_wellFormed
    by (by rewrite ?wellFormed_snoc_OS, ?wellFormed_snoc_Arch).
  simpl. split; f_equal.
  - rewrite list_filter_filter.
    replace (Platforms_result o (filtersOf (mkPlatformFlag _ _ _)) supported)
      with (Platforms_result o (filtersOf p) supported)
      by (unfold Platforms_result, filtersOf; simpl;
          by rewrite includes_snoc_negated).
    apply list_filter_iff. intros q.
    rewrite !Is_true_true, !Platforms_keep_spec. unfold excluded. simpl.
    rewrite includes_snoc_negated, excludes_snoc_negated, elem_of_app,
      list_elem_of_singleton.
    split; [intros (Hnex & Hos & Harch)|intros (Hne & Hnex & Hos & Harch)];
      split_and!; try done; try tauto.
  - rewrite list_filter_filter.
    replace (Platforms_result o (filtersOf (mkPlatformFlag _ _ _)) supported)
      with (Platforms_result o (filtersOf p) supported)
      by (unfold Platforms_result, filtersOf; simpl;
          by rewrite includes_snoc_negated).
    apply list_filter_iff. intros q.
    rewrite !Is_true_true, !Platforms_keep_spec. unfold excluded. simpl.
    rewrite includes_snoc_negated, excludes_snoc_negated, elem_of_app,
      list_elem_of_singleton.
    split; [intros (Hnex & Hos & Harch)|intros (Hne & Hnex & Hos & Harch)];
      split_and!; try done; try tauto.
Qed.

(** X16.  One more exclude token, "!x", at the end of the OS list removes
    from the result the platforms whose OS is x and changes nothing else;
    likewise for the Arch list.  An exclude token never adds a platform,
    and never turns a result into a panic.  The two calls range over their
    maps in orders of their own: the results are compared up to their
    order. *)
Theorem Platforms_exclude_token o o' p supported x :
  option_Forall2 (≡ₚ)
    (Platforms o
       (mkPlatformFlag (PlatformFlag_OS p ++ ["!" +:+ x])
          (PlatformFlag_Arch p) (PlatformFlag_OSArch p)) supported)
    (filter (λ q, OS q ≠ x) <$> Platforms o' p supported)
  ∧ option_Forall2 (≡ₚ)
      (Platforms o
         (mkPlatformFlag (PlatformFlag_OS p)
            (PlatformFlag_Arch p ++ ["!" +:+ x]) (PlatformFlag_OSArch p))
         supported)
      (filter (λ q, Arch q ≠ x) <$> Platforms o' p supported).
Proof.
  destruct (Platforms_one_more_exclude o p supported x) as [-> ->].
  pose proof (Platforms_order_option o o' p supported) as Horder.
  split; destruct Horder as [res res' Hperm|]; simpl; constructor;
    by rewrite Hperm.
Qed.

(** ** Strings: [Split], [Join] and [ToLower] *)

Lemma lowerByte_blank d : Ascii.eqb (lowerByte d) " " = Ascii.eqb d " ".
Proof. by destruct d as [[] [] [] [] [] [] [] []]. Qed.

Lemma lowerByte_slash d : Ascii.eqb (lowerByte d) "/" = Ascii.eqb d "/".
Proof. by destruct d as [[] [] [] [] [] [] [] []]. Qed.

Lemma lowerByte_idemp d : lowerByte (lowerByte d) = lowerByte d.
Proof. by destruct d as [[] [] [] [] [] [] [] []]. Qed.

Lemma ToLower_idemp s : ToLower (ToLower s) = ToLower s.
Proof. induction s as [|d s IH]; simpl; [done|]. by rewrite lowerByte_idemp, IH. Qed.

Lemma ToLower_freeOf_blank s : freeOf " " (ToLower s) = freeOf " " s.
Proof. induction s as [|d s IH]; simpl; [done|]. by rewrite lowerByte_blank, IH. Qed.

Lemma ToLower_freeOf_slash s : freeOf "/" (ToLower s) = freeOf "/" s.
Proof. induction s as [|d s IH]; simpl; [done|]. by rewrite lowerByte_slash, IH. Qed.

Lemma ToLower_empty s : ToLower s = "" ↔ s = "".
Proof. by destruct s. Qed.

(** The pieces [Split] returns hold no separator. *)
Lemma Split_freeOf s c : Forall (λ w, freeOf c w) (Split s c).
Proof.
  induction s as [|d s IH]; simpl; [by repeat constructor|].
  destruct (Ascii.eqb d c) eqn:Hd; [by constructor|].
  destruct (Split s c) as [|w ws]; [by repeat constructor; simpl; rewrite Hd|].
  apply Forall_cons in IH as [Hw Hws]. constructor; [|done].
  simpl. by rewrite Hd.
Qed.

Lemma Split_freeOf_id e c : freeOf c e → Split e c = [e].
Proof.
  induction e as [|d e IH]; simpl; [done|].
  intros [Hd He]%andb_prop_elim. apply negb_prop_elim in Hd.
  destruct (Ascii.eqb d c); [done|]. by rewrite IH.
Qed.

Lemma Split_append e c r :
  freeOf c e → Split (e +:+ String c r) c = e :: Split r c.
Proof.
  induction e as [|d e IH]; rewrite ?append_nil_l, ?append_cons_l; simpl.
  - by rewrite Ascii.eqb_refl.
  - intros [Hd He]%andb_prop_elim. apply negb_prop_elim in Hd.
    destruct (Ascii.eqb d c); [done|]. by rewrite IH.
Qed.

(** [Split] undoes [Join] on pieces without separator. *)
Lemma Split_Join l c :
  l ≠ [] → Forall (λ w, freeOf c w) l → Split (Join l (String c "")) c = l.
Proof.
  induction l as [|e l IH]; [done|]. intros _ Hfree.
  apply Forall_cons in Hfree as [He Hl].
  destruct l as [|e' l]; [by apply Split_freeOf_id|].
  change (Join (e :: e' :: l) (String c ""))
    with (e +:+ String c "" +:+ Join (e' :: l) (String c "")).
  change (String c "" +:+ Join (e' :: l) (String c ""))
    with (String c (Join (e' :: l) (String c ""))).
  rewrite Split_append by done. by rewrite IH.
Qed.

Lemma freeOf_append c a b : freeOf c (a +:+ b) = freeOf c a && freeOf c b.
Proof.
  induction a as [|d a IH]; rewrite ?append_nil_l, ?append_cons_l; simpl;
    [done|].
  by rewrite IH, andb_assoc.
Qed.

(** ** [appendIfMissing] and the [Set] methods *)

Lemma appendIfMissing_spec {A} `{EqDecision A} (s : list A) value :
  appendIfMissing s value = if decide (value ∈ s) then s else s ++ [value].
Proof.
  induction s as [|a s IH].
  - by rewrite decide_False by apply not_elem_of_nil.
  - simpl. destruct (decide (a = value)) as [->|Hne].
    + by rewrite decide_True by left.
    + rewrite IH. destruct (decide (value ∈ s)) as [Hin|Hnin].
      * by rewrite decide_True by (by right).
      * by rewrite decide_False by (by intros [?|?]%elem_of_cons).
Qed.

Lemma appendIfMissing_prefix {A} `{EqDecision A} (s : list A) value :
  s `prefix_of` appendIfMissing s value.
Proof.
  rewrite appendIfMissing_spec. case_decide; [done|]. by apply prefix_app_r.
Qed.

Lemma appendIfMissing_NoDup {A} `{EqDecision A} (s : list A) value :
  NoDup s → NoDup (appendIfMissing s value).
Proof.
  intros Hnd. rewrite appendIfMissing_spec. case_decide as Hin; [done|].
  apply NoDup_app. split_and!; [done| |apply NoDup_singleton].
  intros x Hx ->%list_elem_of_singleton. done.
Qed.

(** A loop of [appendIfMissing] calls, as the two [Set] methods run. *)
Lemma foldl_appendIfMissing_prefix {A} `{EqDecision A} (s l : list A) :
  s `prefix_of` foldl appendIfMissing s l.
Proof.
  revert s. induction l as [|x l IH]; intros s; simpl; [done|].
  etrans; [apply (appendIfMissing_prefix s x)|apply IH].
Qed.

Lemma foldl_appendIfMissing_NoDup {A} `{EqDecision A} (s l : list A) :
  NoDup s → NoDup (foldl appendIfMissing s l).
Proof.
  revert s. induction l as [|x l IH]; intros s Hnd; simpl; [done|].
  by apply IH, appendIfMissing_NoDup.
Qed.

Lemma foldl_appendIfMissing_elem_of {A} `{EqDecision A} (s l : list A) x :
  x ∈ foldl appendIfMissing s l ↔ x ∈ s ∨ x ∈ l.
Proof.
  revert s. induction l as [|y l IH]; intros s; simpl.
  - split; [by left|]. by intros [?|?%not_elem_of_nil].
  - rewrite IH, appendIfMissing_elem_of, elem_of_cons. tauto.
Qed.

Lemma foldl_appendIfMissing_present {A} `{EqDecision A} (s l : list A) :
  (∀ x, x ∈ l → x ∈ s) → foldl appendIfMissing s l = s.
Proof.
  revert s. induction l as [|y l IH]; intros s Hin; simpl; [done|].
  rewrite appendIfMissing_spec, decide_True by (apply Hin; left).
  apply IH. intros x Hx. apply Hin. by right.
Qed.

Lemma foldl_appendIfMissing_fresh {A} `{EqDecision A} (s l : list A) :
  NoDup (s ++ l) → foldl appendIfMissing s l = s ++ l.
Proof.
  revert s. induction l as [|y l IH]; intros s Hnd; simpl;
    [by rewrite app_nil_r|].
  apply NoDup_app in Hnd as (Hs & Hdisj & Hl).
  apply NoDup_cons in Hl as [Hy Hl].
  rewrite appendIfMissing_spec, decide_False
    by (intros Hin; apply (Hdisj y Hin); left).
  rewrite IH; [by rewrite <- app_assoc|].
  apply NoDup_app. split_and!; [|intros x Hx Hxl|done].
  - apply NoDup_app. split_and!; [done| |apply NoDup_singleton].
    intros x Hx ->%list_elem_of_singleton. apply (Hdisj y Hx). left.
  - apply elem_of_app in Hx as [Hx| ->%list_elem_of_singleton]; [|done].
    apply (Hdisj x Hx). by right.
Qed.

(** The tokens [appendStringValue.Set] appends, in the order of the
    value. *)
Lemma appendStringValue_Set_tokens s value :
  appendStringValue_Set s value
  = (foldl appendIfMissing s
       (ToLower <$> filter (λ v, v ≠ "") (Split value " ")), None).
Proof.
  unfold appendStringValue_Set. f_equal.
  generalize (Split value " ") as tokens. intros tokens. revert s.
  induction tokens as [|v tokens IH]; intros s; [done|].
  destruct (decide (v = "")) as [->|Hv].
  - rewrite filter_cons_False by (intros H; by apply H). simpl. apply IH.
  - rewrite filter_cons_True by done. simpl.
    destruct (String.eqb_spec v ""); [done|]. simpl. apply IH.
Qed.

Lemma storedToken_ToLower v : v ≠ "" → freeOf " " v → storedToken (ToLower v).
Proof.
  intros Hv Hfree. split_and!.
  - by apply ToLower_nonempty.
  - by rewrite ToLower_freeOf_blank.
  - apply ToLower_idemp.
Qed.

(** X17.  [appendStringValue.Set] only appends: the list it is called on
    stays, in its order, at the front of the new one, and a list without
    duplicates stays without duplicates. *)
Theorem appendStringValue_Set_appends s value :
  NoDup s →
  s `prefix_of` (appendStringValue_Set s value).1
  ∧ NoDup (appendStringValue_Set s value).1.
Proof.
  intros Hnd. rewrite appendStringValue_Set_tokens. simpl. split.
  - apply foldl_appendIfMissing_prefix.
  - by apply foldl_appendIfMissing_NoDup.
Qed.

Lemma appendStringValue_Set_appends_witness :
  ["linux"; "!arm"]
    `prefix_of` (appendStringValue_Set ["linux"; "!arm"] "Windows linux").1
  ∧ NoDup (appendStringValue_Set ["linux"; "!arm"] "Windows linux").1.
Proof.
  apply appendStringValue_Set_appends.
  apply (bool_decide_unpack _). by vm_compute.
Defined.

(** X18.  Giving the same value twice is giving it once: a second
    [appendStringValue.Set] with the same value leaves the list as the
    first one made it. *)
Theorem appendStringValue_Set_twice s value :
  appendStringValue_Set (appendStringValue_Set s value).1 value
  = appendStringValue_Set s value.
Proof.
  rewrite !appendStringValue_Set_tokens. simpl. f_equal.
  apply foldl_appendIfMissing_present. intros x Hx.
  apply foldl_appendIfMissing_elem_of. by right.
Qed.

(** X19.  What [appendStringValue.Set] stores is a token: every entry it
    adds is not empty, holds no blank, and is in lower case (ASCII); a list
    of such entries stays one. *)
Theorem appendStringValue_Set_storedToken s value :
  Forall storedToken s →
  Forall storedToken (appendStringValue_Set s value).1.
Proof.
  rewrite !Forall_forall. intros Hs x Hx.
  apply appendStringValue_Set_elem_of in Hx as [Hx|(v & Hv & Hne & ->)];
    [by apply Hs|].
  apply storedToken_ToLower; [done|].
  by apply (proj1 (Forall_forall _ _) (Split_freeOf value " ")).
Qed.

Lemma appendStringValue_Set_storedToken_witness :
  Forall storedToken (appendStringValue_Set ["linux"] "Windows  !ARM").1.
Proof.
  apply appendStringValue_Set_storedToken.
  repeat constructor. discriminate.
Defined.

(** X20.  [String] and [Set] of [appendStringValue] round-trip on ASCII
    tokens: a list of distinct tokens of ASCII bytes, printed by [String]
    and read back by [Set] into an empty list, is the same list, and no
    error.  (Outside ASCII [strings.ToLower] rewrites bytes that [ToLower]
    keeps, and the list read back may differ.) *)
Theorem appendStringValue_String_Set s :
  NoDup s → Forall storedToken s → Forall (λ x, isASCII x) s →
  appendStringValue_Set [] (appendStringValue_String s) = (s, None).
Proof.
  intros Hnd Htok _. destruct (decide (s = [])) as [->|Hne]; [done|].
  rewrite appendStringValue_Set_tokens. f_equal.
  unfold appendStringValue_String. rewrite Split_Join; [|done|].
  2:{ eapply Forall_impl; [done|]. by intros x (_ & ? & _). }
  assert (filter (λ v, v ≠ "") s = s) as ->.
  { clear Hnd Hne. induction s as [|x s IH]; [done|].
    apply Forall_cons in Htok as [(Hx & _) Htok].
    rewrite filter_cons_True by done. by rewrite IH. }
  assert (ToLower <$> s = s) as ->.
  { rewrite <- (list_fmap_id s) at 2. apply Forall_fmap_ext.
    eapply Forall_impl; [done|]. by intros x (_ & _ & ?). }
  by apply (foldl_appendIfMissing_fresh []).
Qed.

Lemma appendStringValue_String_Set_witness :
  appendStringValue_Set [] (appendStringValue_String ["linux"; "!arm"])
  = (["linux"; "!arm"], None).
Proof.
  apply appendStringValue_String_Set.
  - apply (bool_decide_unpack _). by vm_compute.
  - repeat constructor; discriminate.
  - repeat constructor.
Defined.

Lemma pairOf_malformed t : pairOf t = None ↔ malformed t.
Proof.
  unfold pairOf, malformed.
  destruct (Split t "/") as [|a [|b [|c r]]]; simpl; split; try done;
    intros H; by destruct H.
Qed.

Lemma appendPlatformValue_Set_loop_cons s t tokens :
  appendPlatformValue_Set_loop s (t :: tokens)
  = match pairOf t with
    | Some platform =>
        appendPlatformValue_Set_loop (appendIfMissing s platform) tokens
    | None => (s, Some (syntaxError t))
    end.
Proof.
  unfold pairOf. simpl. by destruct (Split t "/") as [|a [|b [|c r]]].
Qed.

(** The loop of [appendPlatformValue.Set]: the tokens before the first
    malformed one are appended, the rest is not read. *)
Lemma appendPlatformValue_Set_loop_spec s pre rest :
  Forall (λ t, ¬ malformed t) pre →
  (rest = [] ∨ ∃ v post, rest = v :: post ∧ malformed v) →
  appendPlatformValue_Set_loop s (pre ++ rest)
  = (foldl appendIfMissing s (omap pairOf pre), syntaxError <$> head rest).
Proof.
  intros Hpre Hrest. revert s.
  induction pre as [|t pre IH]; intros s.
  - destruct Hrest as [->|(v & post & -> & Hv)]; [done|].
    simpl app. rewrite appendPlatformValue_Set_loop_cons.
    apply pairOf_malformed in Hv. by rewrite Hv.
  - apply Forall_cons in Hpre as [Ht Hpre].
    rewrite <- app_comm_cons, appendPlatformValue_Set_loop_cons. simpl.
    destruct (pairOf t) as [q|] eqn:Hq; [by apply IH|].
    by apply pairOf_malformed in Hq.
Qed.

Lemma appendPlatformValue_Set_loop_invariant (I : list Platform → Prop)
    s tokens :
  I s →
  (∀ s' t q, I s' → t ∈ tokens → pairOf t = Some q →
             I (appendIfMissing s' q)) →
  I (appendPlatformValue_Set_loop s tokens).1.
Proof.
  revert s. induction tokens as [|t tokens IH]; intros s Hs Hstep; [done|].
  rewrite appendPlatformValue_Set_loop_cons.
  destruct (pairOf t) as [q|] eqn:Hq; [|done].
  apply IH.
  - apply (Hstep s t q); [done|left|done].
  - intros s' t' q' Hs' Ht'. apply Hstep; [done|by right].
Qed.

Lemma appendPlatformValue_Set_invariant (I : list Platform → Prop)
    s value :
  I s →
  (∀ s' t q, I s' → t ∈ Split value " " → pairOf t = Some q →
             I (appendIfMissing s' q)) →
  I (appendPlatformValue_Set s value).1.
Proof.
  intros Hs Hstep. unfold appendPlatformValue_Set.
  destruct (String.eqb value ""); [done|].
  by apply appendPlatformValue_Set_loop_invariant.
Qed.

Lemma appendPlatformValue_Set_accepted s value :
  Forall (λ t, ¬ malformed t) (pairTokens value) →
  appendPlatformValue_Set s value
  = (foldl appendIfMissing s (omap pairOf (pairTokens value)), None).
Proof.
  unfold appendPlatformValue_Set, pairTokens.
  destruct (String.eqb value ""); [done|]. intros Hwell.
  rewrite <- (app_nil_r (Split value " ")) at 1.
  rewrite appendPlatformValue_Set_loop_spec; auto.
Qed.



Lemma freeOf_Split s c d :
  freeOf c s → Forall (λ w, freeOf c w) (Split s d).
Proof.
  induction s as [|e s IH]; simpl; [by repeat constructor|].
  intros [He Hs]%andb_prop_elim. specialize (IH Hs).
  destruct (Ascii.eqb e d); [by constructor|].
  destruct (Split s d) as [|w ws]; [repeat constructor; simpl|].
  - by rewrite andb_true_r.
  - apply Forall_cons in IH as [Hw Hws]. constructor; [|done].
    simpl. by apply andb_prop_intro.
Qed.

Lemma storedName_ToLower x : freeOf "/" x → freeOf " " x → storedName (ToLower x).
Proof.
  intros Hslash Hblank. split_and!.
  - by rewrite ToLower_freeOf_slash.
  - by rewrite ToLower_freeOf_blank.
  - apply ToLower_idemp.
Qed.

Lemma pairOf_storedPair value t q :
  t ∈ Split value " " → pairOf t = Some q → storedPair q.
Proof.
  intros Ht Hq.
  pose proof (proj1 (Forall_forall _ _) (Split_freeOf value " ") t Ht)
    as Hblank.
  pose proof (Split_freeOf t "/") as Hslash.
  pose proof (freeOf_Split t " " "/" Hblank) as Hblank'.
  unfold pairOf in Hq.
  destruct (Split t "/") as [|os [|arch [|c r]]]; try done.
  injection Hq as <-.
  apply Forall_cons in Hslash as [Hos [Harch _]%Forall_cons].
  apply Forall_cons in Hblank' as [Hos' [Harch' _]%Forall_cons].
  split_and!; [by apply storedName_ToLower..|done].
Qed.

(** X22.  What [appendPlatformValue.Set] stores: the list it is called on
    stays at the front, a list without duplicates stays without
    duplicates, and every pair added has [Default] unset and two names in
    lower case (ASCII) that hold neither "/" nor a blank, whether the call
    returns an error or not. *)
Theorem appendPlatformValue_Set_stored s value :
  NoDup s → Forall storedPair s →
  s `prefix_of` (appendPlatformValue_Set s value).1
  ∧ NoDup (appendPlatformValue_Set s value).1
  ∧ Forall storedPair (appendPlatformValue_Set s value).1.
Proof.
  intros Hnd Hstored. split_and!.
  - apply (appendPlatformValue_Set_invariant (λ r, s `prefix_of` r));
      [done|].
    intros s' t q Hs' _ _. etrans; [done|apply appendIfMissing_prefix].
  - apply (appendPlatformValue_Set_invariant NoDup); [done|].
    intros s' t q Hs' _ _. by apply appendIfMissing_NoDup.
  - apply (appendPlatformValue_Set_invariant (Forall storedPair)); [done|].
    intros s' t q Hs' Ht Hq. apply Forall_forall. intros x Hx.
    apply appendIfMissing_elem_of in Hx as [Hx| ->].
    + by apply (proj1 (Forall_forall _ _) Hs').
    + by apply (pairOf_storedPair value t).
Qed.

Lemma appendPlatformValue_Set_stored_witness :
  let s := [mkPlatform "linux" "amd64" false] in
  let value := "Darwin/AMD64 linux/amd64 !windows/386 oops" in
  s `prefix_of` (appendPlatformValue_Set s value).1
  ∧ NoDup (appendPlatformValue_Set s value).1
  ∧ Forall storedPair (appendPlatformValue_Set s value).1.
Proof.
  intros s value. apply appendPlatformValue_Set_stored.
  - apply (bool_decide_unpack _). by vm_compute.
  - repeat constructor.
Defined.

Lemma Platform_String_nonempty p : String.eqb (Platform_String p) "" = false.
Proof.
  unfold Platform_String. destruct (OS p) as [|c r];
    by rewrite ?append_nil_l, ?append_cons_l.
Qed.

(** X23.  The canonical string round-trips through the pair flag: for a
    platform whose names are ASCII, in lower case, and hold neither "/"
    nor a blank, [appendPlatformValue.Set] of its [String()] into an empty
    list gives that platform, [Default] unset, and no error.  (Outside
    ASCII [strings.ToLower] rewrites bytes that [ToLower] keeps.) *)
Theorem Platform_String_Set p :
  storedName (OS p) → storedName (Arch p) →
  isASCII (OS p) → isASCII (Arch p) →
  appendPlatformValue_Set [] (Platform_String p) = ([clearDefault p], None).
Proof.
  intros (Hos1 & Hos2 & Hos3) (Harch1 & Harch2 & Harch3) _ _.
  unfold appendPlatformValue_Set. rewrite Platform_String_nonempty.
  rewrite Split_freeOf_id.
  2:{ unfold Platform_String. rewrite !freeOf_append.
      apply andb_prop_intro. split; [done|].
      apply andb_prop_intro. by split. }
  rewrite appendPlatformValue_Set_loop_cons. unfold pairOf, Platform_String.
  change ("/" +:+ Arch p) with (String "/" (Arch p)).
  rewrite Split_append, Split_freeOf_id by done.
  by rewrite Hos3, Harch3.
Qed.

Lemma Platform_String_Set_witness :
  appendPlatformValue_Set [] (Platform_String (mkPlatform "linux" "amd64" true))
  = ([clearDefault (mkPlatform "linux" "amd64" true)], None).
Proof.
  apply Platform_String_Set; repeat split.
Defined.

(** ** The flag values and [Platforms] *)

(** X24.  The OS flag and the Arch flag cannot make [Platforms] panic:
    after [Set] on either value, with any string, a request that had no
    zero-length token has none, and [Platforms] returns a result. *)
Theorem FlagValue_Set_no_panic o p value supported :
  wellFormed p →
  is_Some (Platforms o (OSFlagValue_Set p value).1 supported)
  ∧ is_Some (Platforms o (ArchFlagValue_Set p value).1 supported).
Proof.
  intros (Hos & Harch & Hpair).
  split; rewrite Platforms_wellFormed; try (by eexists);
    split_and!; simpl; try done;
    by apply appendStringValue_Set_nonempty.
Qed.

Lemma FlagValue_Set_no_panic_witness :
  is_Some (Platforms canonicalOrder
             (OSFlagValue_Set (mkPlatformFlag [] [] []) " !  Linux ").1
             Platforms_1_0)
  ∧ is_Some (Platforms canonicalOrder
               (ArchFlagValue_Set (mkPlatformFlag [] [] []) " !  Linux ").1
               Platforms_1_0).
Proof.
  apply FlagValue_Set_no_panic. repeat split; constructor.
Defined.

Lemma Split_head_empty t c os rest :
  Split t c = os :: rest → rest ≠ [] → os = "" ↔ index0 t = Some c.
Proof.
  destruct t as [|d t]; simpl.
  - by intros [= <- <-].
  - destruct (Ascii.eqb_spec d c) as [->|Hd].
    + by intros [= <- _] _.
    + destruct (Split t c) as [|w ws]; intros [= <- _] _;
        split; try done; intros [= ?]; done.
Qed.

Lemma pairOf_empty_OS t q :
  pairOf t = Some q → OS q = "" ↔ index0 t = Some "/"%char.
Proof.
  unfold pairOf. destruct (Split t "/") as [|os [|arch [|c r]]] eqn:Hparts;
    try done.
  intros [= <-]. simpl. rewrite ToLower_empty.
  by apply (Split_head_empty t "/" os [arch]).
Qed.

(** X25.  The pair flag can: after a value that [OSArchFlagValue]'s [Set]
    accepts, on a request without zero-length token, [Platforms] panics
    exactly when a token of the value begins with "/", that is, has an
    empty OS side. *)
Theorem OSArchFlagValue_Set_panic o p value supported :
  wellFormed p →
  (OSArchFlagValue_Set p value).2 = None →
  Platforms o (OSArchFlagValue_Set p value).1 supported = None
  ↔ Exists (λ t, index0 t = Some "/"%char) (pairTokens value).
Proof.
  intros (Hos & Harch & Hpair) Herr. simpl in Herr.
  assert (Forall (λ t, ¬ malformed t) (pairTokens value)) as Hwell.
  { assert ((appendPlatformValue_Set (PlatformFlag_OSArch p) value).2
            = syntaxError <$> head (filter malformed (pairTokens value)))
      as Hhead.
    { unfold appendPlatformValue_Set, pairTokens.
      destruct (String.eqb value ""); [done|].
      apply appendPlatformValue_Set_loop_error. }
    rewrite Herr in Hhead. apply Forall_forall. intros t Ht Hmal.
    assert (t ∈ filter malformed (pairTokens value)) as Hin
      by (by apply list_elem_of_filter).
    destruct (filter malformed (pairTokens value)); [|done].
    by apply not_elem_of_nil in Hin. }
  rewrite Platforms_panic_iff. unfold OSArchFlagValue_Set, wellFormed. simpl.
  rewrite appendPlatformValue_Set_accepted by done. simpl.
  rewrite Exists_exists, !Forall_forall.
  rewrite Forall_forall in Hos. rewrite Forall_forall in Harch. split.
  - intros Hnot.
    destruct (decide (Exists (λ t, index0 t = Some "/"%char)
                        (pairTokens value))) as [Hex|Hex];
      [by apply Exists_exists in Hex|].
    destruct Hnot. split_and!; [done|done|].
    intros q Hq Hempty.
    apply foldl_appendIfMissing_elem_of in Hq as [Hq|Hq];
      [by apply (proj1 (Forall_forall _ _) Hpair q)|].
    apply list_elem_of_omap in Hq as (t & Ht & Hqt).
    apply Hex, Exists_exists. exists t. split; [done|].
    by apply (pairOf_empty_OS t q).
  - intros (t & Ht & Hslash) (_ & _ & Hall).
    destruct (pairOf t) as [q|] eqn:Hq.
    + apply (Hall q).
      * apply foldl_appendIfMissing_elem_of. right.
        apply list_elem_of_omap. by exists t.
      * by apply (pairOf_empty_OS t q).
    + apply pairOf_malformed in Hq.
      by apply (proj1 (Forall_forall _ _) Hwell t).
Qed.

Lemma OSArchFlagValue_Set_panic_witness :
  Platforms canonicalOrder
    (OSArchFlagValue_Set (mkPlatformFlag [] [] []) "linux/arm /amd64").1
    Platforms_1_0 = None
  ↔ Exists (λ t, index0 t = Some "/"%char) (pairTokens "linux/arm /amd64").
Proof.
  apply OSArchFlagValue_Set_panic.
  - repeat split; constructor.
  - reflexivity.
Defined.

(** ** No platform twice *)

Lemma NoDup_keys_inj (l : list Platform) x y :
  NoDup (Platform_String <$> l) → x ∈ l → y ∈ l →
  Platform_String x = Platform_String y → x = y.
Proof.
  intros Hnd Hx Hy Heq.
  pose proof (filter_unique_image Platform_String l y Hnd Hy) as Hf.
  assert (x ∈ filter (λ z, Platform_String z = Platform_String y) l) as Hin
    by (by apply list_elem_of_filter).
  rewrite Hf in Hin. by apply list_elem_of_singleton in Hin.
Qed.

Lemma NoDup_matching (supported : list Platform) (P : Platform → bool) :
  NoDup (Platform_String <$> supported) →
  NoDup (supported ≫= λ platform,
           if P platform then [clearDefault platform] else []).
Proof.
  intros Hnd. apply NoDup_bind.
  - intros s1 s2 y Hs1 Hs2 Hy1 Hy2.
    destruct (P s1); [|by apply not_elem_of_nil in Hy1].
    destruct (P s2); [|by apply not_elem_of_nil in Hy2].
    apply list_elem_of_singleton in Hy1, Hy2.
    apply (NoDup_keys_inj supported); [done..|].
    by rewrite <- (Platform_String_clearDefault s1),
      <- (Platform_String_clearDefault s2), <- Hy1, <- Hy2.
  - intros s _. destruct (P s); [apply NoDup_singleton|apply NoDup_nil_2].
  - by eapply NoDup_fmap_1.
Qed.

Lemma Platforms_result_NoDup o f supported :
  NoDup (Platform_String <$> supported) →
  NoDup (Platforms_result o f supported).
Proof.
  intros Hnd. unfold Platforms_result.
  destruct (0 <? size (includeOSArch f)).
  { apply NoDup_bind; [|intros k _; repeat case_match;
                         auto using NoDup_singleton, NoDup_nil_2
                       |apply rangeKeys_NoDup].
    intros k1 k2 y _ _ Hy1 Hy2.
    destruct (Platforms_supportedMap supported !! k1) as [s1|] eqn:Hs1;
      [|by apply not_elem_of_nil in Hy1].
    destruct (Platforms_supportedMap supported !! k2) as [s2|] eqn:Hs2;
      [|by apply not_elem_of_nil in Hy2].
    destruct (negb (getBool (ignoreOSArch f) k1));
      [|by apply not_elem_of_nil in Hy1].
    destruct (negb (getBool (ignoreOSArch f) k2));
      [|by apply not_elem_of_nil in Hy2].
    apply list_elem_of_singleton in Hy1, Hy2.
    rewrite Platforms_supportedMap_index in Hs1, Hs2.
    apply indexByKey_Some in Hs1 as [<- _], Hs2 as [<- _].
    by rewrite <- (Platform_String_clearDefault s1),
      <- (Platform_String_clearDefault s2), <- Hy1, <- Hy2. }
  destruct ((0 <? size (includeOS f)) && (0 <? size (includeArch f))).
  { apply NoDup_bind; [| |apply rangeKeys_NoDup].
    - intros os1 os2 y _ _ [a1 [Hy1 _]]%list_elem_of_bind
        [a2 [Hy2 _]]%list_elem_of_bind.
      destruct (Platforms_supportedMap supported !! _);
        [|by apply not_elem_of_nil in Hy1].
      destruct (Platforms_supportedMap supported !! _);
        [|by apply not_elem_of_nil in Hy2].
      apply list_elem_of_singleton in Hy1, Hy2. by simplify_eq.
    - intros os _. apply NoDup_bind; [| |apply rangeKeys_NoDup].
      + intros a1 a2 y _ _ Hy1 Hy2.
        destruct (Platforms_supportedMap supported !! _);
          [|by apply not_elem_of_nil in Hy1].
        destruct (Platforms_supportedMap supported !! _);
          [|by apply not_elem_of_nil in Hy2].
        apply list_elem_of_singleton in Hy1, Hy2. by simplify_eq.
      + intros a _. case_match; auto using NoDup_singleton, NoDup_nil_2. }
  destruct (0 <? size (includeOS f)).
  { apply NoDup_bind; [| |apply rangeKeys_NoDup].
    - intros os1 os2 y _ _ [s1 [Hy1 _]]%list_elem_of_bind
        [s2 [Hy2 _]]%list_elem_of_bind.
      destruct (String.eqb_spec (OS s1) os1) as [<-|];
        [|by apply not_elem_of_nil in Hy1].
      destruct (String.eqb_spec (OS s2) os2) as [<-|];
        [|by apply not_elem_of_nil in Hy2].
      apply list_elem_of_singleton in Hy1, Hy2. subst y.
      by injection Hy2.
    - intros os _. by apply (NoDup_matching supported (λ s, String.eqb (OS s) os)). }
  by apply (NoDup_matching supported Default).
Qed.

(** X26.  No platform is returned twice: on a snapshot without duplicate
    canonical string, the list [Platforms] returns has no duplicate,
    whatever the request and the order the maps are ranged over. *)
Theorem Platforms_no_duplicate o p supported res :
  NoDup (Platform_String <$> supported) →
  Platforms o p supported = Some res → NoDup res.
Proof.
  intros Hnd. unfold Platforms.
  destruct (Platforms_filters p) as [f|]; [|done]. simpl. intros [= <-].
  by apply NoDup_filter, Platforms_result_NoDup.
Qed.

Lemma Platforms_no_duplicate_witness :
  NoDup [mkPlatform "linux" "386" false; mkPlatform "linux" "amd64" false].
Proof.
  apply (Platforms_no_duplicate canonicalOrder
           (mkPlatformFlag ["linux"] ["!arm"] []) Platforms_1_0).
  - apply (bool_decide_unpack _). by vm_compute.
  - by vm_compute.
Defined.
